(** * screenshot-mcp: the window cache and the window resolver

    A shallow embedding of [index.ts] (the version with [WindowCache]):
    the cache class, [getWindowList], [getApplicationWindowsList],
    [getFirstWindowIdForApp] and the three tool handlers, followed by the
    properties of the cache and of the resolver.

    Conventions of the embedding
    - a JavaScript string is a [string]; only ASCII separators are searched
      for, so working on the bytes of the UTF-8 form finds the same pieces;
    - a [number] that holds a window id or a time stamp is a [Z]; [NaN], which
      only [parseInt] produces, is [None];
    - the built-ins whose result depends on Unicode tables or on the locale
      ([trim], [toLowerCase], [localeCompare], [parseInt]) are the operations
      of the class [Runtime];
    - the outside world (the shell commands, the file system) answers through
      the record [Env], as a function of the calls made so far;
    - [async] code is a state-and-exception monad over [World]: the cache, the
      clock read by [Date.now()], and the log of the external calls. *)

From Stdlib Require Import List String Ascii ZArith Lia Bool.
From Stdlib Require Import Permutation Sorted DecimalString.
From Stdlib Require DecimalPos DecimalZ DecimalFacts.
Import ListNotations.

Local Open Scope Z_scope.
Local Open Scope list_scope.

Notation "a +++ b" := (String.append a b)
  (at level 60, right associativity) : string_scope.
Local Open Scope string_scope.

(** ** Strings *)

(** The character [U+0022], which template literals put around names. *)
Definition dquote : string := String (ascii_of_nat 34) EmptyString.

(** [strip_prefix pre s] is the rest of [s] after [pre] when [s] starts with
    [pre]. *)
Fixpoint strip_prefix (pre s : string) : option string :=
  match pre, s with
  | EmptyString, _ => Some s
  | String _ _, EmptyString => None
  | String c pre', String d s' =>
      if Ascii.eqb c d then strip_prefix pre' s' else None
  end.

(** [cut sep s] cuts [s] at the first occurrence of [sep]: the text before it
    and the text after it. *)
Fixpoint cut (sep s : string) : option (string * string) :=
  match strip_prefix sep s with
  | Some rest => Some (EmptyString, rest)
  | None =>
      match s with
      | EmptyString => None
      | String c s' =>
          match cut sep s' with
          | Some (before, rest) => Some (String c before, rest)
          | None => None
          end
      end
  end.

Fixpoint split_fuel (fuel : nat) (sep s : string) : list string :=
  match fuel with
  | O => [s]
  | S fuel' =>
      match cut sep s with
      | None => [s]
      | Some (before, rest) => before :: split_fuel fuel' sep rest
      end
  end.

Fixpoint chars (s : string) : list string :=
  match s with
  | EmptyString => []
  | String c s' => String c EmptyString :: chars s'
  end.

(** [String.prototype.split(sep)] with a string separator and no limit: the
    pieces between the successive occurrences of [sep], found from the left.
    Each cut consumes at least one character of a non-empty separator, so
    [length s] rounds are enough; the empty separator gives the characters. *)
Definition split (sep s : string) : list string :=
  match sep with
  | EmptyString => chars s
  | String _ _ => split_fuel (String.length s) sep s
  end.

(** [String.prototype.includes]. *)
Fixpoint includes (sub s : string) : bool :=
  match strip_prefix sub s with
  | Some _ => true
  | None =>
      match s with
      | EmptyString => false
      | String _ s' => includes sub s'
      end
  end.

(** [s.endsWith(c)] for a single character [c]. *)
Fixpoint endsWith (s : string) (c : ascii) : bool :=
  match s with
  | EmptyString => false
  | String d EmptyString => Ascii.eqb d c
  | String _ s' => endsWith s' c
  end.

(** [Array.prototype.join]. *)
Fixpoint join (sep : string) (l : list string) : string :=
  match l with
  | [] => EmptyString
  | [x] => x
  | x :: l' => x +++ sep +++ join sep l'
  end.

(** A number in a template literal. *)
Definition numberToString (z : Z) : string := NilZero.string_of_int (Z.to_int z).

(** The truth value of a string: only the empty string is falsy. *)
Definition truthy (s : string) : bool :=
  match s with
  | EmptyString => false
  | String _ _ => true
  end.

(** ** The built-ins left to the platform *)

Class Runtime := {
  (** [String.prototype.trim] *)
  trim : string -> string;
  (** [String.prototype.toLowerCase] *)
  toLowerCase : string -> string;
  (** [a.localeCompare(b)]: negative, zero or positive *)
  localeCompare : string -> string -> Z;
  (** [parseInt(s)]; [None] is [NaN] *)
  parseInt : string -> option Z;
  (** [path.join] *)
  pathJoin : string -> string -> string
}.

(** [Array.prototype.sort(cmp)] is a stable sort whenever [cmp] is a
    consistent comparator; insertion from the right is one. *)
Section Sort.
Context {A : Type} (cmp : A -> A -> Z).

Fixpoint insert_sorted (x : A) (l : list A) : list A :=
  match l with
  | [] => [x]
  | y :: l' => if (cmp x y <=? 0)%Z then x :: l else y :: insert_sorted x l'
  end.

Fixpoint sort (l : list A) : list A :=
  match l with
  | [] => []
  | x :: l' => insert_sorted x (sort l')
  end.
End Sort.

(** ** [Map]: keys in insertion order *)

Section JsMap.
Context {V : Type}.

Definition JsMap := list (string * V).

Fixpoint map_get (k : string) (m : JsMap) : option V :=
  match m with
  | [] => None
  | (k', v) :: m' => if String.eqb k k' then Some v else map_get k m'
  end.

Definition map_has (k : string) (m : JsMap) : bool :=
  match map_get k m with
  | Some _ => true
  | None => false
  end.

(** [Map.prototype.set]: an existing key keeps its place, a new key goes
    to the end. *)
Fixpoint map_set (k : string) (v : V) (m : JsMap) : JsMap :=
  match m with
  | [] => [(k, v)]
  | (k', v') :: m' =>
      if String.eqb k k' then (k, v) :: m' else (k', v') :: map_set k v m'
  end.

Fixpoint map_delete (k : string) (m : JsMap) : JsMap :=
  match m with
  | [] => []
  | (k', v') :: m' =>
      if String.eqb k k' then m' else (k', v') :: map_delete k m'
  end.

Definition map_values (m : JsMap) : list V := List.map snd m.
Definition map_keys (m : JsMap) : list string := List.map fst m.
Definition map_size (m : JsMap) : nat := List.length m.
End JsMap.
Arguments JsMap : clear implicits.

(** ** The interfaces of [index.ts] *)

Module WindowInfo.
Record t := mk { windowId : Z; appName : string; windowTitle : string }.
End WindowInfo.

Module AppWindow.
(** An element of [ApplicationWindows.windows]. *)
Record t := mk { windowId : Z; windowTitle : string }.
End AppWindow.

Module ApplicationWindows.
Record t := mk { appName : string; windows : list AppWindow.t }.
End ApplicationWindows.

Module CachedWindow.
Record t := mk {
  windowId : Z;
  appName : string;
  windowTitle : string;
  timestamp : Z
}.
End CachedWindow.

(** ** [class WindowCache]

    The methods take the value of [Date.now()] as [now]. Every caller of
    [set] has checked [!isNaN(windowId)], so a cached id is a [Z]. *)
Module WindowCache.
Definition t := JsMap CachedWindow.t.

Definition CACHE_TTL : Z := 30000.

Definition empty : t := [].

Definition getCacheKey (appName windowTitle : string) : string :=
  appName +++ "|||" +++ windowTitle.

Definition get (now : Z) (appName windowTitle : string) (cache : t)
  : option Z * t :=
  let key := getCacheKey appName windowTitle in
  match map_get key cache with
  | None => (None, cache)
  | Some cached =>
      if (now - CachedWindow.timestamp cached >? CACHE_TTL)%Z
      then (None, map_delete key cache)
      else (Some (CachedWindow.windowId cached), cache)
  end.

Definition set (now : Z) (appName windowTitle : string) (windowId : Z)
    (cache : t) : t :=
  let key := getCacheKey appName windowTitle in
  map_set key (CachedWindow.mk windowId appName windowTitle now) cache.

Definition clear (cache : t) : t := [].

Definition getStats (cache : t) : nat * list CachedWindow.t :=
  (map_size cache, map_values cache).
End WindowCache.

(** ** The outside world *)

(** A thrown [Error], or the rejection of an awaited call. *)
Inductive Error := mkError (message : string).

Definition message (e : Error) : string := let (m) := e in m.

Inductive ExecResult := Rejected (error : Error) | Resolved (stdout : string).

(** The two AppleScript programs: every window of every visible process, and
    the first window of one process. *)
Inductive Script := GetWindowsScript | GetFirstWindowScript (appName : string).

(** The commands given to [execAsync].
    - [Osascript]: the script is written to a temporary file, run with
      [osascript] and the file unlinked; a failure of any of the three steps
      reaches the same [catch], so they are one call;
    - [GetWindowID a t]: the command line that names [a] and [t];
    - [Screencapture (Some (shadow, id)) path]: [screencapture -x -l id path],
      with [-o] when [shadow] is false; [Screencapture None path]:
      [screencapture -x path]. *)
Inductive Command :=
| Osascript (script : Script)
| GetWindowID (appName windowTitle : string)
| Screencapture (window : option (bool * Z)) (path : string).

Inductive Call :=
| Exec (command : Command)
| ExistsSync (path : string)
| Mkdir (path : string)
| ReadFile (path : string).

(** What the world answers. Each answer depends on the calls made before, so
    a command may answer differently from one call to the next. *)
Record Env := {
  cwd : string;
  (** [formatTimestamp()], from the clock *)
  formatTimestamp : Z -> string;
  (** the clock once a call has returned: the log with that call, the clock
      before it *)
  clockAfter : list Call -> Z -> Z;
  execAsync : list Call -> Command -> ExecResult;
  existsSync : list Call -> string -> bool;
  mkdir : list Call -> string -> option Error;
  readFile : list Call -> string -> ExecResult
}.

(** The state of the process: the one [windowCache], the time [Date.now()]
    reads, the external calls made so far (oldest first). Time passes while
    a call is awaited, not between two synchronous statements. *)
Record World := mkWorld {
  cache : WindowCache.t;
  clock : Z;
  log : list Call
}.

Inductive Outcome (A : Type) := Returned (a : A) | Thrown (e : Error).
Arguments Returned {A} a.
Arguments Thrown {A} e.

Definition M (A : Type) : Type := World -> Outcome A * World.

Definition ret {A} (a : A) : M A := fun w => (Returned a, w).

Definition throw {A} (e : Error) : M A := fun w => (Thrown e, w).

Definition bind {A B} (m : M A) (k : A -> M B) : M B :=
  fun w =>
    match m w with
    | (Returned a, w') => k a w'
    | (Thrown e, w') => (Thrown e, w')
    end.

(** [try { m } catch (error) { handler }]: what [m] did to the world before
    it threw stays done. *)
Definition try_catch {A} (m : M A) (handler : Error -> M A) : M A :=
  fun w =>
    match m w with
    | (Returned a, w') => (Returned a, w')
    | (Thrown e, w') => handler e w'
    end.

Notation "x <- m ;; k" := (bind m (fun x => k))
  (at level 61, m at next level, right associativity).
Notation "m ;;; k" := (bind m (fun _ => k))
  (at level 61, right associativity).

(** The calls of one kind in a log. *)
Definition isGetWindowID (c : Call) : bool :=
  match c with
  | Exec (GetWindowID _ _) => true
  | _ => false
  end.

Definition isOsascript (c : Call) : bool :=
  match c with
  | Exec (Osascript _) => true
  | _ => false
  end.

Definition lookups (l : list Call) : list Call := filter isGetWindowID l.
Definition enumerations (l : list Call) : list Call := filter isOsascript l.

(** [a || 0] for [a : number | null]. *)
Definition orZero (a : option Z) : Z :=
  match a with
  | Some n => n
  | None => 0
  end.

(** ** The tool protocol *)

(** The arguments of [take_screenshot], as its input schema types them;
    [None] is a missing argument. *)
Module ScreenshotArgs.
Record t := mk {
  filename : option string;
  appName : option string;
  windowName : option string;
  includeWindowShadow : option bool
}.
End ScreenshotArgs.

Inductive Content :=
| Text (text : string)
| Image (data mimeType : string).

Definition ToolResponse := list Content.

(** [if (s)] for an optional string argument: the argument when it is
    there and not empty. *)
Definition given (s : option string) : option string :=
  match s with
  | Some x => if truthy x then Some x else None
  | None => None
  end.

Definition newline : string := String (ascii_of_nat 10) EmptyString.

(** ** The program *)

Section Program.
Context {rt : Runtime} (env : Env).

(** An external call: its answer is computed from the log before it, then
    the call is logged and the clock moves. *)
Definition perform {R} (c : Call) (answer : R) (w : World) : R * World :=
  (answer,
   {| cache := cache w;
      clock := clockAfter env (log w ++ [c]) (clock w);
      log := log w ++ [c] |}).

(** [(await execAsync(command)).stdout] *)
Definition await_exec (command : Command) : M string :=
  fun w =>
    match perform (Exec command) (execAsync env (log w) command) w with
    | (Resolved stdout, w') => (Returned stdout, w')
    | (Rejected error, w') => (Thrown error, w')
    end.

Definition exists_sync (path : string) : M bool :=
  fun w =>
    let (b, w') := perform (ExistsSync path) (existsSync env (log w) path) w in
    (Returned b, w').

(** [await mkdir(path, { recursive: true })] *)
Definition await_mkdir (path : string) : M unit :=
  fun w =>
    match perform (Mkdir path) (mkdir env (log w) path) w with
    | (None, w') => (Returned tt, w')
    | (Some error, w') => (Thrown error, w')
    end.

Definition readFileAsBase64 (filePath : string) : M string :=
  fun w =>
    match perform (ReadFile filePath) (readFile env (log w) filePath) w with
    | (Resolved data, w') => (Returned data, w')
    | (Rejected error, w') => (Thrown error, w')
    end.

(** The methods of [windowCache], with [Date.now()] read from the world. *)
Definition windowCache_get (appName windowTitle : string) : M (option Z) :=
  fun w =>
    let (r, c) := WindowCache.get (clock w) appName windowTitle (cache w) in
    (Returned r, {| cache := c; clock := clock w; log := log w |}).

Definition windowCache_set (appName windowTitle : string) (windowId : Z)
  : M unit :=
  fun w =>
    (Returned tt,
     {| cache := WindowCache.set (clock w) appName windowTitle windowId (cache w);
        clock := clock w;
        log := log w |}).

Definition windowCache_clear : M unit :=
  fun w =>
    (Returned tt,
     {| cache := WindowCache.clear (cache w); clock := clock w; log := log w |}).

Definition windowCache_getStats : M (nat * list CachedWindow.t) :=
  fun w => (Returned (WindowCache.getStats (cache w)), w).

(** The [windowName] branch of [take_screenshot]: the cache first, then
    [GetWindowID]. *)
Definition resolveNamedWindow (appName windowName : string) : M Z :=
  cached <- windowCache_get appName windowName ;;
  let windowId := orZero cached in
  if (windowId =? 0)%Z then
    try_catch
      (windowIdStr <- await_exec (GetWindowID appName windowName) ;;
       match parseInt (trim windowIdStr) with
       | None =>
           throw (mkError ("Invalid window ID returned for " +++ appName
                           +++ " - " +++ windowName))
       | Some windowId =>
           windowCache_set appName windowName windowId ;;;
           ret windowId
       end)
      (fun _ =>
         throw (mkError ("Could not find window " +++ dquote +++ windowName
                         +++ dquote +++ " in application " +++ dquote
                         +++ appName +++ dquote
                         +++ ". Use list_windows to see available windows.")))
  else ret windowId.

Definition sameApp (appName : string) (entry : CachedWindow.t) : bool :=
  String.eqb (toLowerCase (CachedWindow.appName entry)) (toLowerCase appName).

Definition getFirstWindowIdForApp (appName : string) : M Z :=
  try_catch
    (cacheStats <- windowCache_getStats ;;
     match find (sameApp appName) (snd cacheStats) with
     | Some cachedWindow => ret (CachedWindow.windowId cachedWindow)
     | None =>
         stdout <- await_exec (Osascript (GetFirstWindowScript appName)) ;;
         let windowTitle := trim stdout in
         if String.eqb windowTitle "NOT_FOUND" || negb (truthy windowTitle)
         then ret 0%Z
         else
           found <- try_catch
                      (windowIdStr <- await_exec (GetWindowID appName windowTitle) ;;
                       match parseInt (trim windowIdStr) with
                       | Some windowId =>
                           windowCache_set appName windowTitle windowId ;;;
                           ret (Some windowId)
                       | None => ret None
                       end)
                      (fun _ => ret None) ;;
           ret (orZero found)
     end)
    (fun _ => ret 0%Z).

(** One round of the [for] loop of [getWindowList]: the window to push, if
    any. The local [windowId] is a [number]: [None] is [NaN]. *)
Definition resolveWindowString (forceRefresh : bool) (windowString : string)
  : M (option WindowInfo.t) :=
  match split "|||" windowString with
  | [appName; windowTitle] =>
      cachedId <- (if negb forceRefresh
                   then cached <- windowCache_get appName windowTitle ;;
                        ret (orZero cached)
                   else ret 0%Z) ;;
      looked <- (if (cachedId =? 0)%Z
                 then
                   try_catch
                     (windowIdStr <- await_exec (GetWindowID appName windowTitle) ;;
                      let windowId := parseInt (trim windowIdStr) in
                      match windowId with
                      | Some n => windowCache_set appName windowTitle n
                      | None => ret tt
                      end ;;;
                      ret (Some windowId))
                     (fun _ => ret None)
                 else ret (Some (Some cachedId))) ;;
      match looked with
      | None => ret None
      | Some None => ret None
      | Some (Some windowId) =>
          if (windowId >? 0)%Z
          then ret (Some (WindowInfo.mk windowId appName windowTitle))
          else ret None
      end
  | _ => ret None
  end.

Fixpoint windowLoop (forceRefresh : bool) (windowStrings : list string)
    (windows : list WindowInfo.t) : M (list WindowInfo.t) :=
  match windowStrings with
  | [] => ret windows
  | windowString :: rest =>
      pushed <- resolveWindowString forceRefresh windowString ;;
      windowLoop forceRefresh rest
        (match pushed with
         | Some window => windows ++ [window]
         | None => windows
         end)
  end.

Definition getWindowList (forceRefresh : bool) : M (list WindowInfo.t) :=
  try_catch
    (stdout <- await_exec (Osascript GetWindowsScript) ;;
     if negb (truthy (trim stdout)) then ret []
     else windowLoop forceRefresh (split ", " (trim stdout)) [])
    (fun _ => ret []).

(** The loop that fills [appMap]: a first window of an application creates
    its group at the end of the map, every window is pushed on its group. *)
Fixpoint groupWindows (windows : list WindowInfo.t)
    (appMap : JsMap ApplicationWindows.t) : JsMap ApplicationWindows.t :=
  match windows with
  | [] => appMap
  | window :: rest =>
      let name := WindowInfo.appName window in
      let appMap1 :=
        if negb (map_has name appMap)
        then map_set name (ApplicationWindows.mk name []) appMap
        else appMap in
      let appMap2 :=
        match map_get name appMap1 with
        | Some group =>
            map_set name
              (ApplicationWindows.mk
                 (ApplicationWindows.appName group)
                 (ApplicationWindows.windows group
                  ++ [AppWindow.mk (WindowInfo.windowId window)
                                   (WindowInfo.windowTitle window)]))
              appMap1
        | None => appMap1
        end in
      groupWindows rest appMap2
  end.

Definition compareApps (a b : ApplicationWindows.t) : Z :=
  localeCompare (ApplicationWindows.appName a) (ApplicationWindows.appName b).

Definition getApplicationWindowsList (forceRefresh : bool)
  : M (list ApplicationWindows.t) :=
  windows <- getWindowList forceRefresh ;;
  ret (sort compareApps (map_values (groupWindows windows []))).
(** *** The tool handlers *)

(** The end of the [try] block of [take_screenshot]: run the capture
    command, check that the file is there, read it back. *)
Definition capture (command : Command) (screenshotPath appInfo : string)
  : M ToolResponse :=
  await_exec command ;;;
  fileExists <- exists_sync screenshotPath ;;
  if negb fileExists
  then ret [Text "Screenshot failed to save."]
  else
    data <- readFileAsBase64 screenshotPath ;;
    ret [Text ("Screenshot" +++ appInfo +++ " saved to: " +++ screenshotPath);
         Image data "image/png"].

Definition take_screenshot (args : ScreenshotArgs.t) : M ToolResponse :=
  fun w0 =>
    let filename :=
      match given (ScreenshotArgs.filename args) with
      | Some f => f
      | None => "screenshot_" +++ formatTimestamp env (clock w0)
      end in
    let appName := given (ScreenshotArgs.appName args) in
    let windowName := given (ScreenshotArgs.windowName args) in
    let includeWindowShadow :=
      match ScreenshotArgs.includeWindowShadow args with
      | Some false => false
      | _ => true
      end in
    try_catch
      (let screenshotsDir := pathJoin (cwd env) "screenshots" in
       dirExists <- exists_sync screenshotsDir ;;
       (if negb dirExists then await_mkdir screenshotsDir else ret tt) ;;;
       let screenshotPath := pathJoin screenshotsDir (filename +++ ".png") in
       command <-
         match appName with
         | Some appName =>
             windowId <-
               match windowName with
               | Some windowName => resolveNamedWindow appName windowName
               | None =>
                   windowId <- getFirstWindowIdForApp appName ;;
                   if (windowId =? 0)%Z
                   then throw (mkError
                          ("No windows found for application " +++ dquote
                           +++ appName +++ dquote
                           +++ ". Use list_windows to see available applications."))
                   else ret windowId
               end ;;
             ret (Screencapture (Some (includeWindowShadow, windowId)) screenshotPath)
         | None => ret (Screencapture None screenshotPath)
         end ;;
       let appInfo :=
         match appName with
         | Some appName =>
             " of " +++ appName
             +++ match windowName with
                 | Some windowName => " (" +++ windowName +++ ")"
                 | None => EmptyString
                 end
         | None => EmptyString
         end in
       capture command screenshotPath appInfo)
      (fun error => ret [Text ("Error taking screenshot: " +++ message error)])
      w0.

Definition renderApplication (app : ApplicationWindows.t) : string :=
  ApplicationWindows.appName app +++ ":" +++ newline
  +++ join newline
        (List.map
           (fun w => "  • " +++ dquote +++ AppWindow.windowTitle w +++ dquote
                     +++ " (ID: " +++ numberToString (AppWindow.windowId w) +++ ")")
           (ApplicationWindows.windows app)).

Definition list_windows (forceRefresh : bool) : M ToolResponse :=
  try_catch
    (applications <- getApplicationWindowsList forceRefresh ;;
     match applications with
     | [] =>
         ret [Text "No windows found. Make sure you have granted accessibility permissions to Terminal in System Preferences > Security & Privacy > Privacy > Accessibility."]
     | _ =>
         cacheStats <- windowCache_getStats ;;
         let windowList :=
           join (newline +++ newline) (List.map renderApplication applications) in
         let cacheInfo :=
           if forceRefresh
           then newline +++ newline +++ "[Cache bypassed - all window IDs refreshed]"
           else newline +++ newline +++ "[Cache: "
                +++ numberToString (Z.of_nat (fst cacheStats)) +++ " entries]" in
         ret [Text ("Available applications and windows:" +++ newline +++ newline
                    +++ windowList +++ cacheInfo)]
     end)
    (fun error => ret [Text ("Error listing windows: " +++ message error)]).

Definition clear_cache : M ToolResponse :=
  try_catch
    (stats <- windowCache_getStats ;;
     windowCache_clear ;;;
     ret [Text ("Cache cleared. Previously contained "
                +++ numberToString (Z.of_nat (fst stats)) +++ " entries.")])
    (fun error => ret [Text ("Error clearing cache: " +++ message error)]).
End Program.

(** ** A runtime and a scripted world for the examples

    [asciiRuntime] handles ASCII text: blanks are the six ASCII white space
    characters, letters are [A-Z], numerals are decimal, and strings compare
    by their bytes. *)

Definition isSpace (c : ascii) : bool :=
  match nat_of_ascii c with
  | 9%nat | 10%nat | 11%nat | 12%nat | 13%nat | 32%nat => true
  | _ => false
  end.

Fixpoint trimStart (s : string) : string :=
  match s with
  | EmptyString => EmptyString
  | String c s' => if isSpace c then trimStart s' else s
  end.

Fixpoint trimEnd (s : string) : string :=
  match s with
  | EmptyString => EmptyString
  | String c s' =>
      match trimEnd s' with
      | EmptyString => if isSpace c then EmptyString else String c EmptyString
      | r => String c r
      end
  end.

Definition lowerChar (c : ascii) : ascii :=
  let n := nat_of_ascii c in
  if (65 <=? n)%nat && (n <=? 90)%nat then ascii_of_nat (n + 32) else c.

Fixpoint lowerString (s : string) : string :=
  match s with
  | EmptyString => EmptyString
  | String c s' => String (lowerChar c) (lowerString s')
  end.

Definition digitOf (c : ascii) : option Z :=
  let n := nat_of_ascii c in
  if (48 <=? n)%nat && (n <=? 57)%nat then Some (Z.of_nat (n - 48)) else None.

(** The value of the longest prefix of decimal digits, [None] when there is
    none. *)
Fixpoint parseDigits (acc : option Z) (s : string) : option Z :=
  match s with
  | EmptyString => acc
  | String c s' =>
      match digitOf c with
      | Some d => parseDigits (Some (10 * orZero acc + d)%Z) s'
      | None => acc
      end
  end.

Definition parseDecimal (s : string) : option Z :=
  match trimStart s with
  | String "-" s' => option_map Z.opp (parseDigits None s')
  | String "+" s' => parseDigits None s'
  | s' => parseDigits None s'
  end.

Fixpoint byteCompare (a b : string) : Z :=
  match a, b with
  | EmptyString, EmptyString => 0
  | EmptyString, String _ _ => -1
  | String _ _, EmptyString => 1
  | String c a', String d b' =>
      match (N_of_ascii c ?= N_of_ascii d)%N with
      | Lt => -1
      | Gt => 1
      | Eq => byteCompare a' b'
      end
  end.

Definition asciiRuntime : Runtime :=
  {| trim := fun s => trimEnd (trimStart s);
     toLowerCase := lowerString;
     localeCompare := byteCompare;
     parseInt := parseDecimal;
     pathJoin := fun a b => a +++ "/" +++ b |}.

(** A world whose answers do not depend on the past: [windows] is what the
    enumeration script prints, [firstTitle] what the first-window script
    prints, [ids] what [GetWindowID] prints; every call takes [elapsed]
    milliseconds, and [captured] tells whether a file exists once asked. *)
Definition scriptedEnv (windows : ExecResult) (firstTitle : string -> ExecResult)
    (ids : string -> string -> ExecResult) (captured : bool) (elapsed : Z)
  : Env :=
  {| cwd := "/work";
     formatTimestamp := fun _ => "2025-01-01_00-00-00";
     clockAfter := fun _ now => (now + elapsed)%Z;
     execAsync := fun _ command =>
       match command with
       | Osascript GetWindowsScript => windows
       | Osascript (GetFirstWindowScript appName) => firstTitle appName
       | GetWindowID appName windowTitle => ids appName windowTitle
       | Screencapture _ _ => Resolved EmptyString
       end;
     existsSync := fun _ _ => captured;
     mkdir := fun _ _ => None;
     readFile := fun _ _ => Resolved "aGVsbG8=" |}.

Definition notFound : ExecResult := Rejected (mkError "Command failed").

(** [GetWindowID] for the windows of the end-to-end scenario. *)
Definition scenarioIds (appName windowTitle : string) : ExecResult :=
  if String.eqb appName "Figma" && String.eqb windowTitle "Design A"
  then Resolved "10"
  else if String.eqb appName "Figma" && String.eqb windowTitle "Design B"
  then Resolved "11"
  else if String.eqb appName "Mail" && String.eqb windowTitle "Inbox"
  then Resolved "12"
  else notFound.

Definition scenarioEnv : Env :=
  scriptedEnv
    (Resolved ("Figma|||Design A, Figma|||Design B, Mail|||Inbox" +++ newline))
    (fun _ => Resolved "NOT_FOUND") scenarioIds true 5.

Definition freshWorld : World := {| cache := WindowCache.empty; clock := 0; log := [] |}.

(** A world in which the enumeration prints one window and [GetWindowID]
    prints 0 at its first call and 7 afterwards. *)
Definition zeroThenSeven : Env :=
  {| cwd := "/work";
     formatTimestamp := fun _ => "2025-01-01_00-00-00";
     clockAfter := fun _ now => (now + 5)%Z;
     execAsync := fun l command =>
       match command with
       | Osascript GetWindowsScript => Resolved "App|||Win"
       | Osascript (GetFirstWindowScript _) => Resolved "NOT_FOUND"
       | GetWindowID _ _ =>
           match lookups l with
           | [] => Resolved "0"
           | _ => Resolved "7"
           end
       | Screencapture _ _ => Resolved EmptyString
       end;
     existsSync := fun _ _ => true;
     mkdir := fun _ _ => None;
     readFile := fun _ _ => Resolved "aGVsbG8=" |}.

(** A world in which [screencapture] returns without error and writes no
    file. *)
Definition silentCapture : Env :=
  scriptedEnv (Resolved EmptyString) (fun _ => Resolved "NOT_FOUND")
    (fun _ _ => notFound) false 5.

(** A world whose enumeration prints a title with a comma and a title with
    the delimiter; every lookup prints 5. *)
Definition clutteredEnv : Env :=
  scriptedEnv (Resolved "Notes|||Hello, world, Mail|||a|||b, Mail|||Inbox")
    (fun _ => Resolved "NOT_FOUND") (fun _ _ => Resolved "5") true 5.

(** ** The vocabulary of the properties *)

(** The pair a window string stands for, when it has exactly two fields. *)
Definition pairOf (windowString : string) : option (string * string) :=
  match split "|||" windowString with
  | [appName; windowTitle] => Some (appName, windowTitle)
  | _ => None
  end.

Fixpoint pairsOf (windowStrings : list string) : list (string * string) :=
  match windowStrings with
  | [] => []
  | x :: rest =>
      match pairOf x with
      | Some p => p :: pairsOf rest
      | None => pairsOf rest
      end
  end.

(** The window pushed for a pair, from the number its handle resolved to. *)
Definition listed (appName windowTitle : string) (handle : option Z)
  : option WindowInfo.t :=
  match handle with
  | Some n =>
      if (n >? 0)%Z then Some (WindowInfo.mk n appName windowTitle) else None
  | None => None
  end.

(** What [getApplicationWindowsList] keeps of a window in its group. *)
Definition itemOf (x : WindowInfo.t) : AppWindow.t :=
  AppWindow.mk (WindowInfo.windowId x) (WindowInfo.windowTitle x).

(** The windows of one application, in the order of the list. *)
Definition windowsOf (appName : string) (windows : list WindowInfo.t)
  : list AppWindow.t :=
  List.map itemOf
    (filter (fun x => String.eqb (WindowInfo.appName x) appName) windows).

Definition lookupCall (p : string * string) : Call :=
  Exec (GetWindowID (fst p) (snd p)).

Section Vocabulary.
Context {rt : Runtime} (env : Env).

(** The world once a call has returned. *)
Definition afterCall (c : Call) (w : World) : World :=
  snd (perform env c tt w).

(** The window strings the loop of [getWindowList] runs over: none when the
    enumeration fails or prints nothing. *)
Definition enumeratedStrings (w : World) : list string :=
  match execAsync env (log w) (Osascript GetWindowsScript) with
  | Resolved stdout =>
      if truthy (trim stdout) then split ", " (trim stdout) else []
  | Rejected _ => []
  end.

Definition enumeratedPairs (w : World) : list (string * string) :=
  pairsOf (enumeratedStrings w).

(** The number a pair resolves to in a world: the handle of a live cache
    entry when no refresh is forced and that handle is not zero, else what
    [GetWindowID] prints, read by [parseInt]. *)
Definition resolvedHandle (forceRefresh : bool) (w : World)
    (appName windowTitle : string) : option Z :=
  let cached :=
    if forceRefresh then 0%Z
    else orZero (fst (WindowCache.get (clock w) appName windowTitle (cache w))) in
  if (cached =? 0)%Z then
    match execAsync env (log w) (GetWindowID appName windowTitle) with
    | Resolved stdout => parseInt (trim stdout)
    | Rejected _ => None
    end
  else Some cached.

(** The world after the round of the loop for one pair. *)
Definition afterRound (forceRefresh : bool) (p : string * string) (w : World)
  : World :=
  snd (resolveWindowString env forceRefresh
         (WindowCache.getCacheKey (fst p) (snd p)) w).

(** [Listing forceRefresh pairs w windows]: [windows] are, in order, the
    pairs of [pairs] that resolve to a positive handle, each with that
    handle, when the pairs are resolved one after the other from [w]. *)
Inductive Listing (forceRefresh : bool)
  : list (string * string) -> World -> list WindowInfo.t -> Prop :=
| Listing_done (w : World) : Listing forceRefresh [] w []
| Listing_kept (a t : string) (n : Z) rest w windows :
    resolvedHandle forceRefresh w a t = Some n ->
    (n > 0)%Z ->
    Listing forceRefresh rest (afterRound forceRefresh (a, t) w) windows ->
    Listing forceRefresh ((a, t) :: rest) w (WindowInfo.mk n a t :: windows)
| Listing_dropped (a t : string) rest w windows :
    (forall n, resolvedHandle forceRefresh w a t = Some n -> (n <= 0)%Z) ->
    Listing forceRefresh rest (afterRound forceRefresh (a, t) w) windows ->
    Listing forceRefresh ((a, t) :: rest) w windows.
End Vocabulary.

(** [entryFor cache a t n]: the cache holds, under the key of the pair, an
    entry for that pair with the handle [n]. *)
Definition entryFor (cache : WindowCache.t) (appName windowTitle : string)
    (n : Z) : Prop :=
  exists e : CachedWindow.t,
    map_get (WindowCache.getCacheKey appName windowTitle) cache = Some e /\
    CachedWindow.windowId e = n /\
    CachedWindow.appName e = appName /\
    CachedWindow.windowTitle e = windowTitle.

(** [answers env w a t n]: from the world [w] on, whatever calls are made,
    [GetWindowID] prints the number [n] for the pair. *)
Definition answers {rt : Runtime} (env : Env) (w : World)
    (appName windowTitle : string) (n : Z) : Prop :=
  forall extra : list Call,
  exists stdout : string,
    execAsync env (log w ++ extra)%list (GetWindowID appName windowTitle)
    = Resolved stdout /\
    parseInt (trim stdout) = Some n.

(** The key of a pair. *)
Definition keyOf (p : string * string) : string :=
  WindowCache.getCacheKey (fst p) (snd p).

(** The order a comparator puts two values in. *)
Definition inOrder {A : Type} (cmp : A -> A -> Z) (x y : A) : Prop :=
  (cmp x y <= 0)%Z.

(** The invariant of a [Map]: no key twice. Every method keeps it. *)
Definition wellFormed (cache : WindowCache.t) : Prop := NoDup (map_keys cache).

(** One round of the grouping loop. *)
Definition addWindow (window : WindowInfo.t)
    (appMap : JsMap ApplicationWindows.t) : JsMap ApplicationWindows.t :=
  groupWindows [window] appMap.

Definition named (m : JsMap ApplicationWindows.t) : Prop :=
  forall k g, In (k, g) m -> ApplicationWindows.appName g = k.

Definition windowsAt (name : string) (m : JsMap ApplicationWindows.t)
  : list AppWindow.t :=
  match map_get name m with
  | Some g => ApplicationWindows.windows g
  | None => []
  end.

(** ** Further vocabulary *)

(** Every entry is filed under the key of its own names. *)
Definition keyed (cache : WindowCache.t) : Prop :=
  forall k e, In (k, e) cache ->
    k = WindowCache.getCacheKey (CachedWindow.appName e)
          (CachedWindow.windowTitle e).

(** What every cache the process can reach satisfies. *)
Definition cacheOk (cache : WindowCache.t) : Prop :=
  wellFormed cache /\ keyed cache.

(** [keeps P m]: running [m] from a world that satisfies [P] ends in one
    that does, whether [m] returns or throws. *)
Definition keeps {A : Type} (P : World -> Prop) (m : M A) : Prop :=
  forall (w : World), P w -> P (snd (m w)).

(** A property of the cache, as a property of the world. *)
Definition onCache (Q : WindowCache.t -> Prop) (w : World) : Prop := Q (cache w).

(** The text of the error for a named window that cannot be resolved. *)
Definition windowNotFound (appName windowName : string) : Error :=
  mkError ("Could not find window " +++ dquote +++ windowName +++ dquote
           +++ " in application " +++ dquote +++ appName +++ dquote
           +++ ". Use list_windows to see available windows.").

(** The text of the error for an application without a window. *)
Definition noWindowsForApp (appName : string) : Error :=
  mkError ("No windows found for application " +++ dquote +++ appName
           +++ dquote +++ ". Use list_windows to see available applications.").

(** The window the loop of [getWindowList] takes from the cache for a pair
    that has an entry. *)
Definition fromCache (cache : WindowCache.t) (p : string * string)
  : list WindowInfo.t :=
  match map_get (keyOf p) cache with
  | Some e =>
      if (CachedWindow.windowId e >? 0)%Z
      then [WindowInfo.mk (CachedWindow.windowId e) (fst p) (snd p)]
      else []
  | None => []
  end.



(** The hint [list_windows] gives when nothing is listed. *)
Definition noWindowsHint : string :=
  "No windows found. Make sure you have granted accessibility permissions to Terminal in System Preferences > Security & Privacy > Privacy > Accessibility.".

(** ** The request handler of [CallToolRequestSchema] *)

(** A tool call: the name of the tool and the [arguments] object, of which
    [take_screenshot] reads four properties and [list_windows] one. *)
Module Request.
Record t := mk {
  name : string;
  arguments : ScreenshotArgs.t;
  forceRefresh : option bool
}.
End Request.

(** The tools [ListToolsRequestSchema] answers with, by name. *)
Definition listTools : list string :=
  ["take_screenshot"; "list_windows"; "clear_cache"].

Section Dispatcher.
Context {rt : Runtime} (env : Env).

(** The [switch] on [request.params.name]. *)
Definition callTool (request : Request.t) : M ToolResponse :=
  let name := Request.name request in
  if String.eqb name "clear_cache" then clear_cache
  else if String.eqb name "list_windows" then
    list_windows env
      (match Request.forceRefresh request with
       | Some true => true
       | _ => false
       end)
  else if String.eqb name "take_screenshot" then
    take_screenshot env (Request.arguments request)
  else throw (mkError ("Unknown tool: " +++ name)).
End Dispatcher.

(** *** The stages of [take_screenshot] *)

Section Stages.
Context {rt : Runtime} (env : Env).

Definition screenshotsDir : string := pathJoin (cwd env) "screenshots".

(** The file name: the argument, or the time stamp when it is missing or
    empty. *)
Definition fileNameOf (args : ScreenshotArgs.t) (w : World) : string :=
  match given (ScreenshotArgs.filename args) with
  | Some f => f
  | None => "screenshot_" +++ formatTimestamp env (clock w)
  end.

Definition screenshotPath (args : ScreenshotArgs.t) (w : World) : string :=
  pathJoin screenshotsDir (fileNameOf args w +++ ".png").

(** The first statements of the [try] block: make the directory unless it
    is there. *)
Definition ensureDirectory : M unit :=
  dirExists <- exists_sync env screenshotsDir ;;
  if negb dirExists then await_mkdir env screenshotsDir else ret tt.

Definition includeShadow (args : ScreenshotArgs.t) : bool :=
  match ScreenshotArgs.includeWindowShadow args with
  | Some false => false
  | _ => true
  end.

(** The [if (appName)] statement: the window to capture, none for the full
    screen. *)
Definition resolveTarget (args : ScreenshotArgs.t) : M (option (bool * Z)) :=
  match given (ScreenshotArgs.appName args) with
  | Some appName =>
      windowId <-
        match given (ScreenshotArgs.windowName args) with
        | Some windowName => resolveNamedWindow env appName windowName
        | None =>
            windowId <- getFirstWindowIdForApp env appName ;;
            if (windowId =? 0)%Z
            then throw (noWindowsForApp appName)
            else ret windowId
        end ;;
      ret (Some (includeShadow args, windowId))
  | None => ret None
  end.

Definition appInfoOf (args : ScreenshotArgs.t) : string :=
  match given (ScreenshotArgs.appName args) with
  | Some appName =>
      " of " +++ appName
      +++ match given (ScreenshotArgs.windowName args) with
          | Some windowName => " (" +++ windowName +++ ")"
          | None => EmptyString
          end
  | None => EmptyString
  end.

(** What the [catch] of [take_screenshot] answers. *)
Definition screenshotError (error : Error) : ToolResponse :=
  [Text ("Error taking screenshot: " +++ message error)].
End Stages.

(** The calls [take_screenshot] makes for the full screen. *)
Definition fullScreenCall (path : string) (dir : string) (c : Call) : Prop :=
  c = ExistsSync dir \/ c = Mkdir dir \/
  c = Exec (Screencapture None path) \/ c = ExistsSync path \/
  c = ReadFile path.

(** ** [formatTimestamp] *)

(** What [formatTimestamp] reads of [new Date()]: the fields of the local
    time, the month counted from 0. *)
Module LocalDate.
Record t := mk {
  getFullYear : Z;
  getMonth : Z;
  getDate : Z;
  getHours : Z;
  getMinutes : Z;
  getSeconds : Z
}.
End LocalDate.

Fixpoint repeatString (n : nat) (s : string) : string :=
  match n with
  | O => EmptyString
  | S n' => s +++ repeatString n' s
  end.

(** [String.prototype.padStart]: the pad string, repeated and cut to the
    missing length, in front of a string shorter than the target. *)
Definition padStart (targetLength : nat) (padString s : string) : string :=
  let fillLength := (targetLength - String.length s)%nat in
  match fillLength, padString with
  | O, _ => s
  | _, EmptyString => s
  | _, _ =>
      String.substring 0 fillLength (repeatString fillLength padString) +++ s
  end.

Module Timestamp.
Definition formatTimestamp (now : LocalDate.t) : string :=
  let year := LocalDate.getFullYear now in
  let month := padStart 2 "0" (numberToString (LocalDate.getMonth now + 1)) in
  let day := padStart 2 "0" (numberToString (LocalDate.getDate now)) in
  let hours := padStart 2 "0" (numberToString (LocalDate.getHours now)) in
  let minutes := padStart 2 "0" (numberToString (LocalDate.getMinutes now)) in
  let seconds := padStart 2 "0" (numberToString (LocalDate.getSeconds now)) in
  numberToString year +++ "-" +++ month +++ "-" +++ day +++ "_" +++ hours
  +++ "-" +++ minutes +++ "-" +++ seconds.
End Timestamp.



(** ** [index.ts] without the cache

    The version of the file that asks [GetWindowID] every time. *)
Module Uncached.
Section UncachedProgram.
Context {rt : Runtime} (env : Env).

(** One round of the [for] loop of [getWindowList]. *)
Definition resolveWindowString (windowString : string)
  : M (option WindowInfo.t) :=
  match split "|||" windowString with
  | [appName; windowTitle] =>
      try_catch
        (windowIdStr <- await_exec env (GetWindowID appName windowTitle) ;;
         match parseInt (trim windowIdStr) with
         | Some windowId =>
             ret (Some (WindowInfo.mk windowId appName windowTitle))
         | None => ret None
         end)
        (fun _ => ret None)
  | _ => ret None
  end.

Fixpoint windowLoop (windowStrings : list string)
    (windows : list WindowInfo.t) : M (list WindowInfo.t) :=
  match windowStrings with
  | [] => ret windows
  | windowString :: rest =>
      pushed <- resolveWindowString windowString ;;
      windowLoop rest
        (match pushed with
         | Some window => windows ++ [window]
         | None => windows
         end)
  end.

Definition getWindowList : M (list WindowInfo.t) :=
  try_catch
    (stdout <- await_exec env (Osascript GetWindowsScript) ;;
     if negb (truthy (trim stdout)) then ret []
     else windowLoop (split ", " (trim stdout)) [])
    (fun _ => ret []).

Definition getApplicationWindowsList : M (list ApplicationWindows.t) :=
  windows <- getWindowList ;;
  ret (sort compareApps (map_values (groupWindows windows []))).



(** The branch of [take_screenshot] with a window name. *)
Definition resolveNamedWindow (appName windowName : string) : M Z :=
  try_catch
    (windowIdStr <- await_exec env (GetWindowID appName windowName) ;;
     match parseInt (trim windowIdStr) with
     | None =>
         throw (mkError ("Invalid window ID returned for " +++ appName
                         +++ " - " +++ windowName))
     | Some windowId => ret windowId
     end)
    (fun _ => throw (windowNotFound appName windowName)).
End UncachedProgram.
End Uncached.

(** The windows whose handle is positive. *)
Definition positiveHandle (x : WindowInfo.t) : bool :=
  (WindowInfo.windowId x >? 0)%Z.



(** A world in which the screenshots directory is missing and cannot be
    made. *)
Definition readOnlyEnv : Env :=
  {| cwd := "/work";
     formatTimestamp := fun _ => "2025-01-01_00-00-00";
     clockAfter := fun _ now => (now + 5)%Z;
     execAsync := fun _ _ => Resolved EmptyString;
     existsSync := fun _ _ => false;
     mkdir := fun _ _ => Some (mkError "EACCES: permission denied, mkdir");
     readFile := fun _ _ => Resolved "aGVsbG8=" |}.

(** A world in which the first window of every application is [Inbox]. *)
Definition inboxFirst : Env :=
  scriptedEnv (Resolved EmptyString) (fun _ => Resolved ("Inbox" +++ newline))
    scenarioIds true 5.

(** The arguments of a call without any. *)
Definition noArguments : ScreenshotArgs.t :=
  ScreenshotArgs.mk None None None None.

(** * Properties *)

(** ** Strings *)

Lemma append_empty_r (s : string) : s +++ EmptyString = s.
Proof. induction s as [|c s IH]; simpl; [reflexivity | now rewrite IH]. Qed.

Lemma append_assoc (a b c : string) : (a +++ b) +++ c = a +++ b +++ c.
Proof. induction a as [|x a IH]; simpl; [reflexivity | now rewrite IH]. Qed.

Lemma length_append (a b : string) :
  String.length (a +++ b) = (String.length a + String.length b)%nat.
Proof. induction a as [|x a IH]; simpl; [reflexivity | now rewrite IH]. Qed.

Lemma strip_prefix_Some (pre s rest : string) :
  strip_prefix pre s = Some rest <-> s = pre +++ rest.
Proof.
  revert s; induction pre as [|c pre IH]; intros s; simpl.
  - split; [intros [= ->] | intros ->]; reflexivity.
  - destruct s as [|d s]; [split; discriminate|].
    destruct (Ascii.eqb_spec c d) as [->|Hcd].
    + rewrite IH. split; [intros -> | intros [= ->]]; reflexivity.
    + split; [discriminate | intros [= Hd _]; now symmetry in Hd].
Qed.

Lemma strip_prefix_append (pre rest : string) :
  strip_prefix pre (pre +++ rest) = Some rest.
Proof. now apply strip_prefix_Some. Qed.

(** [cut] finds an occurrence: the string is the text before, the separator
    and the text after. *)
Lemma cut_Some (sep s before rest : string) :
  cut sep s = Some (before, rest) -> s = before +++ sep +++ rest.
Proof.
  revert before; induction s as [|c s IH]; intros before; simpl.
  - destruct (strip_prefix sep EmptyString) as [r|] eqn:E; [|discriminate].
    intros [= <- <-]. now apply strip_prefix_Some in E.
  - destruct (strip_prefix sep (String c s)) as [r|] eqn:E.
    + intros [= <- <-]. now apply strip_prefix_Some in E.
    + destruct (cut sep s) as [[b r]|]; [|discriminate].
      intros [= <- <-]. simpl. now rewrite <- (IH b).
Qed.

Lemma cut_shorter (sep s before rest : string) :
  sep <> EmptyString ->
  cut sep s = Some (before, rest) ->
  (String.length rest < String.length s)%nat.
Proof.
  intros Hsep H. apply cut_Some in H. subst s.
  rewrite !length_append. destruct sep; [congruence | simpl; lia].
Qed.

(** [includes] and [cut] agree on whether the separator occurs. *)
Lemma includes_cut (sep s : string) :
  includes sep s = match cut sep s with Some _ => true | None => false end.
Proof.
  induction s as [|c s IH]; simpl.
  - now destruct (strip_prefix sep EmptyString).
  - destruct (strip_prefix sep (String c s)); [reflexivity|].
    rewrite IH. now destruct (cut sep s) as [[b r]|].
Qed.

Lemma includes_prefix (sub s rest : string) :
  strip_prefix sub s = Some rest -> includes sub s = true.
Proof. intros H. destruct s; simpl; now rewrite H. Qed.

Lemma includes_append (sub a b : string) :
  includes sub (a +++ sub +++ b) = true.
Proof.
  induction a as [|c a IH]; simpl.
  - apply (includes_prefix _ _ b), strip_prefix_append.
  - now destruct (strip_prefix sub (String c (a +++ sub +++ b))).
Qed.

Lemma includes_tail (sub : string) (c : ascii) (s : string) :
  includes sub (String c s) = false -> includes sub s = false.
Proof.
  simpl. now destruct (strip_prefix sub (String c s)).
Qed.

(** An occurrence that starts in the text before the first cut and ends no
    later than the separator's first character would be an earlier cut. *)
Lemma cut_before_clean (sep s before rest : string) :
  sep <> EmptyString ->
  cut sep s = Some (before, rest) -> includes sep before = false.
Proof.
  intros Hsep. revert before.
  induction s as [|c s IH]; intros before; simpl.
  - destruct (strip_prefix sep EmptyString); [|discriminate].
    intros [= <- _]. destruct sep; [congruence | reflexivity].
  - destruct (strip_prefix sep (String c s)) as [r|] eqn:E.
    + intros [= <- _]. destruct sep; [congruence | reflexivity].
    + destruct (cut sep s) as [[b r]|] eqn:Ec; [|discriminate].
      intros [= <- <-]. simpl.
      destruct (strip_prefix sep (String c b)) as [r'|] eqn:E'; [|now apply IH].
      apply strip_prefix_Some in E'. apply cut_Some in Ec.
      assert (Hs : String c s = sep +++ r' +++ sep +++ r).
      { rewrite Ec. change (String c (b +++ sep +++ r))
          with (String c b +++ sep +++ r).
        rewrite E'. now rewrite append_assoc. }
      rewrite Hs, strip_prefix_append in E. discriminate.
Qed.

Lemma split_fuel_enough (sep : string) (n m : nat) (s : string) :
  sep <> EmptyString ->
  (String.length s <= n)%nat -> (String.length s <= m)%nat ->
  split_fuel n sep s = split_fuel m sep s.
Proof.
  intros Hsep. revert m s.
  induction n as [|n IH]; intros m s Hn Hm; destruct m as [|m];
    cbn [split_fuel]; try reflexivity.
  - destruct (cut sep s) as [[b r]|] eqn:E; [|reflexivity].
    apply cut_shorter in E; [lia | assumption].
  - destruct (cut sep s) as [[b r]|] eqn:E; [|reflexivity].
    apply cut_shorter in E; [lia | assumption].
  - destruct (cut sep s) as [[b r]|] eqn:E; [|reflexivity].
    f_equal. pose proof (cut_shorter _ _ _ _ Hsep E). apply IH; lia.
Qed.

(** The recursive equation of [split], free of fuel. *)
Lemma split_unfold (sep s : string) :
  sep <> EmptyString ->
  split sep s =
  match cut sep s with
  | None => [s]
  | Some (before, rest) => before :: split sep rest
  end.
Proof.
  intros Hsep. unfold split. destruct sep as [|x sep]; [congruence|].
  destruct (cut (String x sep) s) as [[b r]|] eqn:E.
  - pose proof (cut_shorter _ _ _ _ Hsep E) as Hlen.
    destruct (String.length s) as [|n] eqn:El; [lia|].
    cbn [split_fuel]. rewrite E. f_equal.
    apply split_fuel_enough; [assumption | lia | lia].
  - destruct (String.length s); cbn [split_fuel]; now rewrite ?E.
Qed.

(** No piece of a split holds the separator. *)
Lemma split_pieces_clean (sep s piece : string) :
  sep <> EmptyString ->
  In piece (split sep s) -> includes sep piece = false.
Proof.
  intros Hsep. remember (String.length s) as n eqn:Hn.
  revert s Hn. induction n as [n IH] using lt_wf_ind. intros s Hn.
  rewrite split_unfold by assumption.
  destruct (cut sep s) as [[b r]|] eqn:E.
  - intros [<- | Hin].
    + now apply cut_before_clean in E.
    + pose proof (cut_shorter _ _ _ _ Hsep E).
      apply (IH (String.length r)) with (s := r); [lia | reflexivity | assumption].
  - intros [<- | []]. rewrite includes_cut. now rewrite E.
Qed.

Lemma split_not_nil (sep s : string) : sep <> EmptyString -> split sep s <> [].
Proof.
  intros Hsep. rewrite split_unfold by assumption.
  now destruct (cut sep s) as [[b r]|].
Qed.

(** A split into two fields recovers the string around one separator. *)
Lemma split_two (sep s a b : string) :
  sep <> EmptyString -> split sep s = [a; b] -> s = a +++ sep +++ b.
Proof.
  intros Hsep. rewrite split_unfold by assumption.
  destruct (cut sep s) as [[x r]|] eqn:E; [|discriminate].
  rewrite split_unfold by assumption.
  destruct (cut sep r) as [[y r']|] eqn:E'.
  - intros [= _ _ H]. now apply split_not_nil in H.
  - intros [= <- <-]. now apply cut_Some.
Qed.

(** ** [Map] *)

Section JsMapFacts.
Context {V : Type}.
Implicit Types (m : JsMap V) (k : string) (v : V).

Lemma map_get_set_same k v m : map_get k (map_set k v m) = Some v.
Proof.
  induction m as [|[k' v'] m IH]; simpl.
  - now rewrite String.eqb_refl.
  - destruct (String.eqb k k') eqn:E; simpl; rewrite ?String.eqb_refl, ?E; auto.
Qed.

Lemma map_get_set_other k k' v m :
  k <> k' -> map_get k' (map_set k v m) = map_get k' m.
Proof.
  intros Hk. apply String.eqb_neq in Hk.
  induction m as [|[k0 v0] m IH]; simpl.
  - now rewrite String.eqb_sym, Hk.
  - destruct (String.eqb_spec k k0) as [<-|Hk0]; simpl.
    + now rewrite String.eqb_sym, Hk.
    + now rewrite IH.
Qed.

Lemma map_get_delete_other k k' m :
  k <> k' -> map_get k' (map_delete k m) = map_get k' m.
Proof.
  intros Hk. apply String.eqb_neq in Hk.
  induction m as [|[k0 v0] m IH]; simpl; [reflexivity|].
  destruct (String.eqb_spec k k0) as [<-|Hk0]; simpl.
  - now rewrite String.eqb_sym, Hk.
  - now rewrite IH.
Qed.

Lemma map_get_In k v m : map_get k m = Some v -> In (k, v) m.
Proof.
  induction m as [|[k0 v0] m IH]; simpl; [discriminate|].
  destruct (String.eqb_spec k k0) as [<-|Hk0].
  - intros [= ->]. now left.
  - intros H. right. now apply IH.
Qed.

Lemma map_get_None k m : map_get k m = None <-> ~ In k (map_keys m).
Proof.
  induction m as [|[k0 v0] m IH]; simpl; [tauto|].
  destruct (String.eqb_spec k k0) as [<-|Hk0].
  - split; [discriminate | tauto].
  - rewrite IH. split; [intros H [E|E]; congruence || tauto | tauto].
Qed.

(** In a map without repeated keys a listed entry is the one [get] finds. *)
Lemma map_In_get k v m : NoDup (map_keys m) -> In (k, v) m -> map_get k m = Some v.
Proof.
  induction m as [|[k0 v0] m IH]; simpl; [tauto|].
  intros Hnd [[= -> ->]|Hin].
  - now rewrite String.eqb_refl.
  - inversion Hnd as [|? ? Hk0 Hnd']; subst.
    destruct (String.eqb_spec k k0) as [->|Hk].
    + exfalso. apply Hk0. change k0 with (fst (k0, v)). now apply in_map.
    + now apply IH.
Qed.

Lemma map_get_delete_same k m :
  NoDup (map_keys m) -> map_get k (map_delete k m) = None.
Proof.
  induction m as [|[k0 v0] m IH]; simpl; [reflexivity|].
  intros Hnd. inversion Hnd as [|? ? Hk0 Hnd']; subst.
  destruct (String.eqb_spec k k0) as [->|Hk]; simpl.
  - now apply map_get_None.
  - apply String.eqb_neq in Hk. rewrite Hk. now apply IH.
Qed.

Lemma map_size_delete k v m :
  map_get k m = Some v -> S (map_size (map_delete k m)) = map_size m.
Proof.
  unfold map_size.
  induction m as [|[k0 v0] m IH]; simpl; [discriminate|].
  destruct (String.eqb k k0); [reflexivity|].
  intros H. simpl. now rewrite IH.
Qed.

Lemma map_keys_set k v m :
  map_keys (map_set k v m) =
  if map_has k m then map_keys m else (map_keys m ++ [k])%list.
Proof.
  unfold map_has.
  induction m as [|[k0 v0] m IH]; simpl; [reflexivity|].
  destruct (String.eqb_spec k k0) as [->|Hk]; simpl; [reflexivity|].
  rewrite IH. now destruct (map_get k m).
Qed.

Lemma map_keys_set_NoDup k v m :
  NoDup (map_keys m) -> NoDup (map_keys (map_set k v m)).
Proof.
  intros Hnd. rewrite map_keys_set. unfold map_has.
  destruct (map_get k m) eqn:E; [assumption|].
  apply map_get_None in E.
  apply NoDup_app; [assumption | repeat constructor; simpl; tauto |].
  intros x Hx [<-|[]]. contradiction.
Qed.

Lemma map_keys_delete_incl k m x :
  In x (map_keys (map_delete k m)) -> In x (map_keys m).
Proof.
  induction m as [|[k0 v0] m IH]; simpl; [tauto|].
  destruct (String.eqb k k0); simpl; [tauto|].
  intros [H|H]; [now left | right; now apply IH].
Qed.

Lemma map_keys_delete_NoDup k m :
  NoDup (map_keys m) -> NoDup (map_keys (map_delete k m)).
Proof.
  induction m as [|[k0 v0] m IH]; simpl; [trivial|].
  intros Hnd. inversion Hnd as [|? ? Hk0 Hnd']; subst.
  destruct (String.eqb k k0); simpl; [assumption|].
  constructor; [|now apply IH].
  intros H. apply Hk0. now apply map_keys_delete_incl in H.
Qed.
End JsMapFacts.

(** ** The cache *)

Lemma wellFormed_empty : wellFormed WindowCache.empty.
Proof. constructor. Qed.

Lemma wellFormed_set now a t h cache :
  wellFormed cache -> wellFormed (WindowCache.set now a t h cache).
Proof. apply map_keys_set_NoDup. Qed.

Lemma wellFormed_get now a t cache :
  wellFormed cache -> wellFormed (snd (WindowCache.get now a t cache)).
Proof.
  intros Hwf. unfold WindowCache.get.
  destruct (map_get _ cache) as [e|]; [|assumption].
  destruct (_ >? _)%Z; [|assumption].
  now apply map_keys_delete_NoDup.
Qed.

(** Cache round trip: a lookup at the time of the store finds the handle. *)
Lemma get_set_same now a t h cache :
  WindowCache.get now a t (WindowCache.set now a t h cache)
  = (Some h, WindowCache.set now a t h cache).
Proof.
  unfold WindowCache.get, WindowCache.set. rewrite map_get_set_same. simpl.
  replace (now - now)%Z with 0%Z by lia. reflexivity.
Qed.

(** A lookup under another key sees through a store. *)
Lemma get_set_other_key now now' a1 t1 a2 t2 h cache :
  WindowCache.getCacheKey a1 t1 <> WindowCache.getCacheKey a2 t2 ->
  fst (WindowCache.get now' a2 t2 (WindowCache.set now a1 t1 h cache))
  = fst (WindowCache.get now' a2 t2 cache).
Proof.
  intros Hk. unfold WindowCache.get, WindowCache.set.
  rewrite map_get_set_other by assumption.
  destruct (map_get _ cache) as [e|]; [|reflexivity].
  now destruct (_ >? _)%Z.
Qed.

(** *** Keys *)

Lemma endsWith_tail (c d : ascii) (s : string) :
  endsWith (String c s) d = false -> endsWith s d = false.
Proof. destruct s; [reflexivity | trivial]. Qed.

Lemma key_of_empty_app (a t1 t2 : string) :
  includes "|||" a = false -> endsWith a "|" = false ->
  "|||" +++ t1 = a +++ "|||" +++ t2 -> a = EmptyString /\ t1 = t2.
Proof.
  intros Hinc Hend H.
  destruct a as [|c1 a]; simpl in H; [injection H; auto|].
  injection H as <- H.
  destruct a as [|c2 a]; [discriminate Hend|].
  injection H as <- H.
  destruct a as [|c3 a]; [discriminate Hend|].
  injection H as <- H.
  discriminate Hinc.
Qed.

(** The key determines the pair as soon as no application name holds the
    delimiter or ends with a bar. *)
Lemma getCacheKey_inj (a1 t1 a2 t2 : string) :
  includes "|||" a1 = false -> endsWith a1 "|" = false ->
  includes "|||" a2 = false -> endsWith a2 "|" = false ->
  WindowCache.getCacheKey a1 t1 = WindowCache.getCacheKey a2 t2 ->
  a1 = a2 /\ t1 = t2.
Proof.
  unfold WindowCache.getCacheKey. revert a2.
  induction a1 as [|c a1 IH]; intros a2 Hi1 He1 Hi2 He2 H.
  - destruct (key_of_empty_app a2 t1 t2 Hi2 He2 H) as [-> ->]. auto.
  - destruct a2 as [|d a2].
    + symmetry in H.
      destruct (key_of_empty_app (String c a1) t2 t1 Hi1 He1 H) as [? _].
      discriminate.
    + injection H as <- H.
      apply includes_tail in Hi1, Hi2. apply endsWith_tail in He1, He2.
      destruct (IH a2 Hi1 He1 Hi2 He2 H) as [-> ->]. auto.
Qed.

(** The pair read off a window string has that string as its key. *)
Lemma getCacheKey_split (windowString a t : string) :
  split "|||" windowString = [a; t] ->
  WindowCache.getCacheKey a t = windowString.
Proof.
  intros H. symmetry. apply split_two in H; [exact H | discriminate].
Qed.

(** C3 -- cache expiry: after [store(a, b, h)] at time [t0], a lookup of
    [(a, b)] at a time [t1] more than the TTL later returns absent and
    deletes the entry, so that the cache holds one entry less and no entry
    under that key. *)
Theorem lookup_past_ttl_evicts
    (cache : WindowCache.t) (a b : string) (h t0 t1 : Z) :
  wellFormed cache ->
  (t1 - t0 > WindowCache.CACHE_TTL)%Z ->
  let stored := WindowCache.set t0 a b h cache in
  let looked := WindowCache.get t1 a b stored in
  fst looked = None /\
  S (map_size (snd looked)) = map_size stored /\
  map_get (WindowCache.getCacheKey a b) (snd looked) = None.
Proof.
  intros Hwf Hage stored looked.
  assert (Hentry : map_get (WindowCache.getCacheKey a b) stored
                   = Some (CachedWindow.mk h a b t0))
    by apply map_get_set_same.
  assert (Hlooked : looked
                    = (None, map_delete (WindowCache.getCacheKey a b) stored)).
  { unfold looked, WindowCache.get. rewrite Hentry. simpl.
    destruct (Z.gtb_spec (t1 - t0) WindowCache.CACHE_TTL); [reflexivity | lia]. }
  rewrite Hlooked. simpl. repeat split.
  - now apply map_size_delete with (v := CachedWindow.mk h a b t0).
  - apply map_get_delete_same. now apply wellFormed_set.
Qed.

Lemma lookup_past_ttl_evicts_witness :
  let stored := WindowCache.set 1000 "Mail" "Inbox" 12 WindowCache.empty in
  let looked := WindowCache.get 31001 "Mail" "Inbox" stored in
  fst looked = None /\
  S (map_size (snd looked)) = map_size stored /\
  map_get (WindowCache.getCacheKey "Mail" "Inbox") (snd looked) = None.
Proof.
  apply (lookup_past_ttl_evicts WindowCache.empty "Mail" "Inbox" 12 1000 31001).
  - apply wellFormed_empty.
  - unfold WindowCache.CACHE_TTL. lia.
Defined.

(** C9, amended -- a store under one pair never changes the result of a
    lookup of another pair, provided neither application name nor window
    title holds the delimiter and no application name ends with a bar; and
    there are distinct pairs, one holding the delimiter, that share a key, so
    that a store for one overwrites the entry of the other. *)
Theorem store_leaves_other_pairs :
  (forall (a1 t1 a2 t2 : string) (h now now' : Z) (cache : WindowCache.t),
      (a1, t1) <> (a2, t2) ->
      includes "|||" a1 = false -> includes "|||" t1 = false ->
      includes "|||" a2 = false -> includes "|||" t2 = false ->
      endsWith a1 "|" = false -> endsWith a2 "|" = false ->
      fst (WindowCache.get now' a2 t2 (WindowCache.set now a1 t1 h cache))
      = fst (WindowCache.get now' a2 t2 cache))
  /\
  (exists a1 t1 a2 t2 : string,
      (a1, t1) <> (a2, t2) /\
      includes "|||" a1 = true /\
      WindowCache.getCacheKey a1 t1 = WindowCache.getCacheKey a2 t2 /\
      forall (h1 h2 now : Z) (cache : WindowCache.t),
        fst (WindowCache.get now a2 t2
               (WindowCache.set now a1 t1 h1 (WindowCache.set now a2 t2 h2 cache)))
        = Some h1).
Proof.
  split.
  - intros a1 t1 a2 t2 h now now' cache Hne Hi1 _ Hi2 _ He1 He2.
    apply get_set_other_key. intros Hk.
    apply getCacheKey_inj in Hk; try assumption.
    destruct Hk as [-> ->]. now apply Hne.
  - exists "A|||B", "C", "A", "B|||C". repeat split; try discriminate.
    intros h1 h2 now cache.
    change (WindowCache.set now "A|||B" "C" h1)
      with (map_set (WindowCache.getCacheKey "A" "B|||C")
              (CachedWindow.mk h1 "A|||B" "C" now)).
    unfold WindowCache.get. rewrite map_get_set_same. simpl.
    replace (now - now)%Z with 0%Z by lia. reflexivity.
Qed.

Lemma store_leaves_other_pairs_witness :
  fst (WindowCache.get 20 "App" "Win2"
         (WindowCache.set 10 "App" "Win1" 1
            (WindowCache.set 0 "App" "Win2" 2 WindowCache.empty)))
  = fst (WindowCache.get 20 "App" "Win2"
           (WindowCache.set 0 "App" "Win2" 2 WindowCache.empty)).
Proof.
  apply (proj1 store_leaves_other_pairs "App" "Win1" "App" "Win2");
    (discriminate || reflexivity).
Defined.

(** C9, as first stated, fails: neither ["x|"], ["y"], ["x"] nor ["|y"]
    holds the delimiter, yet the two pairs share the key ["x||||y"], and the
    store for the first changes what the lookup of the second returns. *)
Lemma bar_at_the_seam_collides :
  ("x|", "y") <> ("x", "|y") /\
  includes "|||" "x|" = false /\ includes "|||" "y" = false /\
  includes "|||" "x" = false /\ includes "|||" "|y" = false /\
  fst (WindowCache.get 0 "x" "|y"
         (WindowCache.set 0 "x" "|y" 2 WindowCache.empty)) = Some 2%Z /\
  fst (WindowCache.get 0 "x" "|y"
         (WindowCache.set 0 "x|" "y" 1
            (WindowCache.set 0 "x" "|y" 2 WindowCache.empty))) = Some 1%Z.
Proof. repeat split; (discriminate || reflexivity). Qed.

(** ** The resolver *)

Lemma world_eta (w : World) :
  {| cache := cache w; clock := clock w; log := log w |} = w.
Proof. now destruct w. Qed.

Section Resolver.
Context {rt : Runtime} (env : Env).

(** A live entry under the exact key is what [windowCache.get] returns, and
    the lookup changes nothing. *)
Lemma windowCache_get_live (w : World) (a t : string) (e : CachedWindow.t) :
  map_get (WindowCache.getCacheKey a t) (cache w) = Some e ->
  (clock w - CachedWindow.timestamp e <= WindowCache.CACHE_TTL)%Z ->
  windowCache_get a t w = (Returned (Some (CachedWindow.windowId e)), w).
Proof.
  intros He Hage. unfold windowCache_get, WindowCache.get. rewrite He.
  destruct (Z.gtb_spec (clock w - CachedWindow.timestamp e)
              WindowCache.CACHE_TTL); [lia|].
  now rewrite world_eta.
Qed.

Lemma windowCache_get_expired (w : World) (a t : string) (e : CachedWindow.t) :
  map_get (WindowCache.getCacheKey a t) (cache w) = Some e ->
  (clock w - CachedWindow.timestamp e > WindowCache.CACHE_TTL)%Z ->
  fst (windowCache_get a t w) = Returned None.
Proof.
  intros He Hage. unfold windowCache_get, WindowCache.get. rewrite He.
  destruct (Z.gtb_spec (clock w - CachedWindow.timestamp e)
              WindowCache.CACHE_TTL); [reflexivity | lia].
Qed.

(** The scan of [getFirstWindowIdForApp] returns the first entry of the
    snapshot whose application name matches, whatever its age. *)
Lemma getFirstWindowIdForApp_scan (w : World) (appName : string)
    (entry : CachedWindow.t) :
  find (sameApp appName) (map_values (cache w)) = Some entry ->
  getFirstWindowIdForApp env appName w
  = (Returned (CachedWindow.windowId entry), w).
Proof.
  intros Hfind. unfold getFirstWindowIdForApp, try_catch, bind,
    windowCache_getStats, WindowCache.getStats. simpl.
  now rewrite Hfind.
Qed.

(** C2, amended -- when the cache holds an unexpired entry for the pair
    whose handle is not zero, the [windowName] path returns that handle and
    leaves the world as it was: no call to [GetWindowID] is logged. *)
Theorem resolveNamedWindow_cache_hit
    (w : World) (appName windowName : string) (e : CachedWindow.t) :
  map_get (WindowCache.getCacheKey appName windowName) (cache w) = Some e ->
  (clock w - CachedWindow.timestamp e <= WindowCache.CACHE_TTL)%Z ->
  CachedWindow.windowId e <> 0%Z ->
  resolveNamedWindow env appName windowName w
  = (Returned (CachedWindow.windowId e), w).
Proof.
  intros He Hage Hid. unfold resolveNamedWindow, bind.
  rewrite (windowCache_get_live w appName windowName e He Hage). simpl.
  destruct (Z.eqb_spec (CachedWindow.windowId e) 0); [contradiction | reflexivity].
Qed.

(** C7 -- first-window fast path: when some entry of the cache has an
    application name equal to the requested one once both are lower-cased,
    [getFirstWindowIdForApp] returns the handle of such an entry (the first
    in the snapshot) and leaves the world as it was: no enumeration call, nor
    any other, is logged. *)
Theorem first_window_fast_path
    (w : World) (appName : string) (entry : CachedWindow.t) :
  In entry (map_values (cache w)) ->
  toLowerCase (CachedWindow.appName entry) = toLowerCase appName ->
  exists (found : CachedWindow.t) (older newer : list CachedWindow.t),
    map_values (cache w) = (older ++ found :: newer)%list /\
    toLowerCase (CachedWindow.appName found) = toLowerCase appName /\
    (forall x, In x older ->
               toLowerCase (CachedWindow.appName x) <> toLowerCase appName) /\
    getFirstWindowIdForApp env appName w
    = (Returned (CachedWindow.windowId found), w).
Proof.
  intros Hin Hname.
  assert (Hsome : exists found older newer,
             map_values (cache w) = (older ++ found :: newer)%list /\
             sameApp appName found = true /\
             (forall x, In x older -> sameApp appName x = false) /\
             find (sameApp appName) (map_values (cache w)) = Some found).
  { induction (map_values (cache w)) as [|x l IH]; [contradiction|].
    simpl. destruct (sameApp appName x) eqn:Ex.
    - exists x, [], l. repeat split; auto. intros ? [].
    - destruct Hin as [->|Hin].
      + unfold sameApp in Ex. rewrite Hname, String.eqb_refl in Ex. discriminate.
      + destruct (IH Hin) as (found & older & newer & -> & Hf & Hold & Hfind).
        exists found, (x :: older), newer. repeat split; auto.
        intros y [<-|Hy]; auto. }
  destruct Hsome as (found & older & newer & Hsplit & Hf & Hold & Hfind).
  exists found, older, newer. repeat split; auto.
  - now apply String.eqb_eq in Hf.
  - intros x Hx. apply Hold in Hx. now apply String.eqb_neq in Hx.
  - now apply getFirstWindowIdForApp_scan.
Qed.

(** C4, amended -- clearing the cache: [clear()] removes all entries and
    returns nothing; the [clear_cache] handler reads the number of entries
    before it clears and answers with that number, which is the number of
    entries removed. *)
Theorem clear_cache_reports_removed (w : World) :
  exists w' : World,
    windowCache_clear w = (Returned tt, w') /\
    clear_cache w
    = (Returned
         [Text ("Cache cleared. Previously contained "
                +++ numberToString
                      (Z.of_nat (map_size (cache w) - map_size (cache w')))
                +++ " entries.")],
       w') /\
    cache w' = WindowCache.clear (cache w) /\
    map_size (cache w') = 0%nat /\
    WindowCache.getStats (cache w') = (0%nat, []) /\
    clock w' = clock w /\ log w' = log w.
Proof.
  exists {| cache := WindowCache.clear (cache w); clock := clock w; log := log w |}.
  unfold clear_cache, try_catch, bind, windowCache_getStats,
    windowCache_clear, ret. simpl.
  rewrite Nat.sub_0_r. repeat split.
Qed.
End Resolver.

(** ** The capture step *)

Section Capture.
Context {rt : Runtime} (env : Env).

Lemma capture_run (w : World) (command : Command) (path appInfo : string) :
  capture env command path appInfo w =
  let w1 := snd (perform env (Exec command) tt w) in
  match execAsync env (log w) command with
  | Rejected error => (Thrown error, w1)
  | Resolved _ =>
      let w2 := snd (perform env (ExistsSync path) tt w1) in
      if existsSync env (log w1) path
      then
        let w3 := snd (perform env (ReadFile path) tt w2) in
        match readFile env (log w2) path with
        | Resolved data =>
            (Returned [Text ("Screenshot" +++ appInfo +++ " saved to: " +++ path);
                       Image data "image/png"], w3)
        | Rejected error => (Thrown error, w3)
        end
      else (Returned [Text "Screenshot failed to save."], w2)
  end.
Proof.
  unfold capture, bind, await_exec, exists_sync, readFileAsBase64, perform, ret.
  simpl.
  destruct (execAsync env (log w) command); [reflexivity|].
  destruct (existsSync env _ path); simpl; [|reflexivity].
  now destruct (readFile env _ path).
Qed.

(** A success answer of [take_screenshot] ends a run whose last three calls
    are the capture command, the check of the destination path, which found
    the file, and the reading of the file. *)
Lemma take_screenshot_success (args : ScreenshotArgs.t) (w w' : World)
    (text data mime : string) :
  take_screenshot env args w = (Returned [Text text; Image data mime], w') ->
  exists l target path,
    log w' = (l ++ [Exec (Screencapture target path); ExistsSync path; ReadFile path])%list /\
    existsSync env (l ++ [Exec (Screencapture target path)])%list path = true.
Proof.
  unfold take_screenshot, try_catch.
  set (path := pathJoin _ (_ +++ ".png")).
  unfold bind at 1.
  destruct (exists_sync env _ w) as [[dirExists|e] w1]; [|discriminate].
  unfold bind at 1.
  match goal with |- context [match ?m w1 with _ => _ end] =>
    destruct (m w1) as [[[]|e] w2] end; [|discriminate].
  unfold bind at 1.
  match goal with |- context [match ?m w2 with _ => _ end] => set (build := m) end.
  assert (Hbuild : forall c w3, build w2 = (Returned c, w3) ->
                     exists target, c = Screencapture target path).
  { subst build. intros c w3.
    destruct (given (ScreenshotArgs.appName args)) as [appName|].
    - unfold bind at 1.
      match goal with |- context [match ?m w2 with _ => _ end] =>
        destruct (m w2) as [[windowId|e] w4] end; [|discriminate].
      intros [= <- _]. eauto.
    - intros [= <- _]. eauto. }
  destruct (build w2) as [[c|e] w3]; [|discriminate].
  destruct (Hbuild c w3 eq_refl) as [target ->].
  rewrite capture_run. simpl.
  destruct (execAsync env (log w3) _); [discriminate|].
  destruct (existsSync env _ path) eqn:Hexists; [|discriminate].
  destruct (readFile env _ path); [discriminate|].
  intros [= _ _ _ <-]. simpl.
  exists (log w3), target, path. split; [|assumption].
  now rewrite <- !app_assoc.
Qed.

(** C8 -- capture failure: when the capture command returns without error
    and no file exists at the destination path afterwards, [capture] answers
    with the failure text and does not read the file; and the handler
    answers with an image only after a check that found the file. *)
Theorem capture_without_file_fails :
  (forall (w : World) (command : Command) (path appInfo stdout : string),
      execAsync env (log w) command = Resolved stdout ->
      existsSync env (log w ++ [Exec command])%list path = false ->
      exists w' : World,
        capture env command path appInfo w
        = (Returned [Text "Screenshot failed to save."], w') /\
        log w' = (log w ++ [Exec command; ExistsSync path])%list)
  /\
  (forall (args : ScreenshotArgs.t) (w w' : World) (text data mime : string),
      take_screenshot env args w = (Returned [Text text; Image data mime], w') ->
      exists (l : list Call) (target : option (bool * Z)) (path : string),
        log w' = (l ++ [Exec (Screencapture target path); ExistsSync path;
                        ReadFile path])%list /\
        existsSync env (l ++ [Exec (Screencapture target path)])%list path = true).
Proof.
  split.
  - intros w command path appInfo stdout Hexec Hexists.
    eexists. rewrite capture_run, Hexec. simpl. rewrite Hexists.
    split; [reflexivity|]. simpl. now rewrite <- app_assoc.
  - apply take_screenshot_success.
Qed.
End Capture.

(** ** The rounds of the listing loop *)

Section Listing.
Context {rt : Runtime} (env : Env).

Lemma pairOf_Some (x a t : string) :
  pairOf x = Some (a, t) <-> split "|||" x = [a; t].
Proof.
  unfold pairOf.
  destruct (split "|||" x) as [|a' [|t' [|? ?]]]; split; try discriminate.
  - now intros [= -> ->].
  - now intros [= -> ->].
Qed.

Lemma pairOf_key (x a t : string) :
  pairOf x = Some (a, t) -> WindowCache.getCacheKey a t = x.
Proof. intros H. apply getCacheKey_split. now apply pairOf_Some. Qed.

(** A window string without exactly two fields costs nothing: no lookup, no
    change, no window. *)
Lemma round_malformed (forceRefresh : bool) (x : string) (w : World) :
  pairOf x = None ->
  resolveWindowString env forceRefresh x w = (Returned None, w).
Proof.
  unfold pairOf, resolveWindowString.
  destruct (split "|||" x) as [|a [|t [|? ?]]]; try reflexivity.
  discriminate.
Qed.

(** The round of a pair, when a refresh is forced: one lookup, and a store
    of the number it prints. *)
Lemma round_forced (x a t : string) (w : World) :
  pairOf x = Some (a, t) ->
  resolveWindowString env true x w =
  let w1 := afterCall env (Exec (GetWindowID a t)) w in
  match execAsync env (log w) (GetWindowID a t) with
  | Rejected _ => (Returned None, w1)
  | Resolved stdout =>
      match parseInt (trim stdout) with
      | None => (Returned None, w1)
      | Some n =>
          (Returned (listed a t (Some n)),
           {| cache := WindowCache.set (clock w1) a t n (cache w1);
              clock := clock w1;
              log := log w1 |})
      end
  end.
Proof.
  intros Hp. apply pairOf_Some in Hp.
  unfold resolveWindowString. rewrite Hp.
  unfold bind, try_catch, await_exec, afterCall, perform, ret, listed. simpl.
  destruct (execAsync env (log w) (GetWindowID a t)) as [e|stdout]; [reflexivity|].
  destruct (parseInt (trim stdout)) as [n|]; [|reflexivity].
  unfold windowCache_set. simpl. now destruct (n >? 0)%Z.
Qed.

(** The round of a pair returns the window that its resolved handle lists,
    and never throws. *)
Lemma round_result (forceRefresh : bool) (x a t : string) (w : World) :
  pairOf x = Some (a, t) ->
  fst (resolveWindowString env forceRefresh x w)
  = Returned (listed a t (resolvedHandle env forceRefresh w a t)).
Proof.
  intros Hp. destruct forceRefresh.
  - rewrite (round_forced x a t w Hp). unfold resolvedHandle. simpl.
    destruct (execAsync env (log w) (GetWindowID a t)) as [e|stdout]; [reflexivity|].
    now destruct (parseInt (trim stdout)).
  - apply pairOf_Some in Hp. unfold resolveWindowString, resolvedHandle.
    rewrite Hp. unfold bind at 1 2. unfold windowCache_get. simpl.
    destruct (WindowCache.get (clock w) a t (cache w)) as [r c]. simpl.
    unfold ret at 1.
    destruct (Z.eqb_spec (orZero r) 0) as [Hz|Hz].
    + unfold bind, try_catch, await_exec, perform, ret. simpl.
      destruct (execAsync env (log w) (GetWindowID a t)) as [e|stdout];
        [reflexivity|].
      destruct (parseInt (trim stdout)) as [n|]; [|reflexivity].
      unfold windowCache_set, listed. simpl. now destruct (n >? 0)%Z.
    + unfold bind, ret, listed. simpl. now destruct (orZero r >? 0)%Z.
Qed.

Lemma round_total (forceRefresh : bool) (x : string) (w : World) :
  exists pushed w',
    resolveWindowString env forceRefresh x w = (Returned pushed, w').
Proof.
  destruct (pairOf x) as [[a t]|] eqn:Hp.
  - pose proof (round_result forceRefresh x a t w Hp) as H.
    destruct (resolveWindowString env forceRefresh x w) as [r w'].
    simpl in H. subst r. eauto.
  - rewrite round_malformed by assumption. eauto.
Qed.

(** *** The loop *)

Lemma pairsOf_wf (xs : list string) (p : string * string) :
  In p (pairsOf xs) -> pairOf (keyOf p) = Some p.
Proof.
  induction xs as [|x xs IH]; simpl; [contradiction|].
  destruct (pairOf x) as [[a t]|] eqn:Hp; [|assumption].
  intros [<-|Hin]; [|now apply IH].
  unfold keyOf. simpl. now rewrite (pairOf_key x a t Hp).
Qed.

Lemma pairsOf_In (xs : list string) (p : string * string) :
  In p (pairsOf xs) -> exists x, In x xs /\ pairOf x = Some p.
Proof.
  induction xs as [|x xs IH]; simpl; [contradiction|].
  destruct (pairOf x) as [q|] eqn:Hp.
  - intros [<-|Hin]; [eauto|]. destruct (IH Hin) as (y & Hy & Hq). eauto.
  - intros Hin. destruct (IH Hin) as (y & Hy & Hq). eauto.
Qed.

(** The loop skips the window strings without exactly two fields. *)
Lemma windowLoop_pairs (forceRefresh : bool) (xs : list string)
    (acc : list WindowInfo.t) (w : World) :
  windowLoop env forceRefresh xs acc w
  = windowLoop env forceRefresh (List.map keyOf (pairsOf xs)) acc w.
Proof.
  revert acc w. induction xs as [|x xs IH]; intros acc w; [reflexivity|].
  simpl. destruct (pairOf x) as [[a t]|] eqn:Hp.
  - simpl. unfold keyOf at 1. simpl. rewrite (pairOf_key x a t Hp).
    unfold bind.
    destruct (resolveWindowString env forceRefresh x w) as [[pushed|e] w1];
      [apply IH | reflexivity].
  - unfold bind. rewrite round_malformed by assumption. apply IH.
Qed.

(** The loop lists the pairs as [Listing] says, after the windows it was
    given, and never throws. *)
Lemma windowLoop_Listing (forceRefresh : bool) (pairs : list (string * string)) :
  (forall p, In p pairs -> pairOf (keyOf p) = Some p) ->
  forall (acc : list WindowInfo.t) (w : World),
  exists windows w',
    windowLoop env forceRefresh (List.map keyOf pairs) acc w
    = (Returned (acc ++ windows)%list, w') /\
    Listing env forceRefresh pairs w windows.
Proof.
  induction pairs as [|[a t] rest IH]; intros Hwf acc w.
  - exists [], w. simpl. rewrite app_nil_r. split; [reflexivity | constructor].
  - assert (Hp : pairOf (keyOf (a, t)) = Some (a, t)) by (apply Hwf; now left).
    assert (Hrest : forall p, In p rest -> pairOf (keyOf p) = Some p)
      by (intros p Hin; apply Hwf; now right).
    pose proof (round_result forceRefresh _ a t w Hp) as Hround.
    simpl. unfold bind.
    destruct (resolveWindowString env forceRefresh (keyOf (a, t)) w)
      as [r w1] eqn:Hrun.
    simpl in Hround. subst r.
    assert (Hw1 : w1 = afterRound env forceRefresh (a, t) w).
    { unfold afterRound. fold (keyOf (a, t)). now rewrite Hrun. }
    destruct (resolvedHandle env forceRefresh w a t) as [n|] eqn:Hh; simpl.
    + destruct (Z.gtb_spec n 0) as [Hpos|Hneg].
      * destruct (IH Hrest (acc ++ [WindowInfo.mk n a t])%list w1)
          as (windows & w' & Hloop & Hlist).
        exists (WindowInfo.mk n a t :: windows), w'.
        rewrite Hloop, <- app_assoc. split; [reflexivity|].
        apply Listing_kept; [assumption | lia | now rewrite <- Hw1].
      * destruct (IH Hrest acc w1) as (windows & w' & Hloop & Hlist).
        exists windows, w'. split; [assumption|].
        apply Listing_dropped; [|now rewrite <- Hw1].
        intros m Hm. rewrite Hh in Hm. injection Hm as <-. lia.
    + destruct (IH Hrest acc w1) as (windows & w' & Hloop & Hlist).
      exists windows, w'. split; [assumption|].
      apply Listing_dropped; [|now rewrite <- Hw1].
      intros m Hm. rewrite Hh in Hm. discriminate.
Qed.

Lemma windowLoop_total (forceRefresh : bool) (xs : list string)
    (acc : list WindowInfo.t) (w : World) :
  exists windows w',
    windowLoop env forceRefresh xs acc w = (Returned windows, w').
Proof.
  rewrite windowLoop_pairs.
  destruct (windowLoop_Listing forceRefresh (pairsOf xs) (pairsOf_wf _) acc w)
    as (windows & w' & -> & _).
  eauto.
Qed.

(** [getWindowList] is the loop over the enumerated window strings; its
    [catch] only ever sees a failed enumeration. *)
Lemma getWindowList_run (forceRefresh : bool) (w : World) :
  getWindowList env forceRefresh w
  = windowLoop env forceRefresh (enumeratedStrings env w) []
      (afterCall env (Exec (Osascript GetWindowsScript)) w).
Proof.
  unfold getWindowList, try_catch, bind at 1, await_exec, enumeratedStrings,
    afterCall, perform. simpl.
  destruct (execAsync env (log w) (Osascript GetWindowsScript)) as [e|stdout];
    [reflexivity|].
  destruct (truthy (trim stdout)); simpl; [|reflexivity].
  match goal with
  | |- context [windowLoop env ?f ?xs ?acc ?w0] =>
      destruct (windowLoop_total f xs acc w0) as (windows & w' & ->)
  end.
  reflexivity.
Qed.

Lemma getWindowList_Listing (forceRefresh : bool) (w : World) :
  exists windows w',
    getWindowList env forceRefresh w = (Returned windows, w') /\
    Listing env forceRefresh (enumeratedPairs env w)
      (afterCall env (Exec (Osascript GetWindowsScript)) w) windows.
Proof.
  rewrite getWindowList_run, windowLoop_pairs.
  destruct (windowLoop_Listing forceRefresh (enumeratedPairs env w)
              (pairsOf_wf _) []
              (afterCall env (Exec (Osascript GetWindowsScript)) w))
    as (windows & w' & Hloop & Hlist).
  exists windows, w'. now split.
Qed.
End Listing.

(** ** Sorting *)

Section SortFacts.
Context {A : Type} (cmp : A -> A -> Z).

Lemma insert_sorted_perm (x : A) (l : list A) :
  Permutation (insert_sorted cmp x l) (x :: l).
Proof.
  induction l as [|y l IH]; simpl; [reflexivity|].
  destruct (cmp x y <=? 0)%Z; [reflexivity|].
  rewrite IH. apply perm_swap.
Qed.

Lemma sort_perm (l : list A) : Permutation (sort cmp l) l.
Proof.
  induction l as [|x l IH]; simpl; [reflexivity|].
  rewrite insert_sorted_perm. now constructor.
Qed.

Hypothesis cmp_total : forall x y, inOrder cmp x y \/ inOrder cmp y x.
Hypothesis cmp_trans :
  forall x y z, inOrder cmp x y -> inOrder cmp y z -> inOrder cmp x z.

Lemma insert_sorted_sorted (x : A) (l : list A) :
  StronglySorted (inOrder cmp) l -> StronglySorted (inOrder cmp) (insert_sorted cmp x l).
Proof.
  induction 1 as [|y l Hl IH Hy]; simpl; [repeat constructor|].
  destruct (Z.leb_spec (cmp x y) 0) as [Hxy|Hxy].
  - constructor; [now constructor|].
    constructor; [assumption|].
    eapply Forall_impl; [|exact Hy]. intros z Hz. now apply (cmp_trans x y z).
  - constructor; [assumption|].
    apply (Permutation_Forall (Permutation_sym (insert_sorted_perm x l))).
    constructor; [|assumption].
    destruct (cmp_total x y) as [H|H]; [unfold inOrder in H; lia | assumption].
Qed.

Lemma sort_sorted (l : list A) : StronglySorted (inOrder cmp) (sort cmp l).
Proof.
  induction l as [|x l IH]; simpl; [constructor | now apply insert_sorted_sorted].
Qed.
End SortFacts.

(** ** Grouping *)

Lemma groupWindows_cons (x : WindowInfo.t) (rest : list WindowInfo.t)
    (m : JsMap ApplicationWindows.t) :
  groupWindows (x :: rest) m = groupWindows rest (addWindow x m).
Proof. reflexivity. Qed.

Lemma map_set_In {V : Type} (k k0 : string) (v v0 : V) (m : JsMap V) :
  In (k, v) (map_set k0 v0 m) -> (k, v) = (k0, v0) \/ In (k, v) m.
Proof.
  induction m as [|[k1 v1] m IH]; simpl.
  - intros [H|[]]. left. now symmetry.
  - destruct (String.eqb k0 k1); simpl.
    + intros [H|H]; [left; now symmetry | right; now right].
    + intros [H|H]; [right; now left|].
      destruct (IH H) as [E|E]; [now left | right; now right].
Qed.

Lemma addWindow_get_same (x : WindowInfo.t) (m : JsMap ApplicationWindows.t) :
  windowsAt (WindowInfo.appName x) (addWindow x m)
  = (windowsAt (WindowInfo.appName x) m ++ [itemOf x])%list.
Proof.
  unfold addWindow, windowsAt. simpl. unfold map_has.
  destruct (map_get (WindowInfo.appName x) m) as [g|] eqn:E; simpl;
    rewrite ?E, ?map_get_set_same; simpl; now rewrite ?map_get_set_same.
Qed.

Lemma addWindow_get_other (x : WindowInfo.t) (name : string)
    (m : JsMap ApplicationWindows.t) :
  WindowInfo.appName x <> name ->
  map_get name (addWindow x m) = map_get name m.
Proof.
  intros Hne. unfold addWindow. simpl. unfold map_has.
  destruct (map_get (WindowInfo.appName x) m) as [g|] eqn:E; simpl;
    rewrite ?E, ?map_get_set_same; now rewrite !map_get_set_other.
Qed.

Lemma addWindow_keys (x : WindowInfo.t) (m : JsMap ApplicationWindows.t) :
  map_keys (addWindow x m)
  = if map_has (WindowInfo.appName x) m then map_keys m
    else (map_keys m ++ [WindowInfo.appName x])%list.
Proof.
  unfold addWindow. simpl. unfold map_has.
  destruct (map_get (WindowInfo.appName x) m) as [g|] eqn:E; simpl;
    rewrite ?E, ?map_get_set_same, !map_keys_set; unfold map_has;
    now rewrite ?map_get_set_same, E.
Qed.

Lemma addWindow_named (x : WindowInfo.t) (m : JsMap ApplicationWindows.t) :
  named m -> named (addWindow x m).
Proof.
  intros Hm k g. unfold addWindow. simpl. unfold map_has.
  destruct (map_get (WindowInfo.appName x) m) as [g0|] eqn:E; simpl.
  - rewrite ?E. intros H. apply map_set_In in H. destruct H as [[= -> ->]|H].
    + simpl. apply Hm. now apply map_get_In.
    + now apply Hm.
  - rewrite map_get_set_same. intros H.
    apply map_set_In in H. destruct H as [[= -> ->]|H]; [reflexivity|].
    apply map_set_In in H. destruct H as [[= -> ->]|H]; [reflexivity|].
    now apply Hm.
Qed.

Lemma addWindow_NoDup (x : WindowInfo.t) (m : JsMap ApplicationWindows.t) :
  NoDup (map_keys m) -> NoDup (map_keys (addWindow x m)).
Proof.
  intros Hnd. rewrite addWindow_keys. unfold map_has.
  destruct (map_get (WindowInfo.appName x) m) eqn:E; [assumption|].
  apply map_get_None in E.
  apply NoDup_app; [assumption | repeat constructor; simpl; tauto |].
  intros y Hy [<-|[]]. contradiction.
Qed.

Lemma windowsOf_cons (name : string) (x : WindowInfo.t)
    (rest : list WindowInfo.t) :
  windowsOf name (x :: rest)
  = if String.eqb (WindowInfo.appName x) name
    then itemOf x :: windowsOf name rest
    else windowsOf name rest.
Proof.
  unfold windowsOf. simpl. now destruct (String.eqb (WindowInfo.appName x) name).
Qed.

Lemma groupWindows_windowsAt (windows : list WindowInfo.t) (name : string)
    (m : JsMap ApplicationWindows.t) :
  windowsAt name (groupWindows windows m)
  = (windowsAt name m ++ windowsOf name windows)%list.
Proof.
  revert m. induction windows as [|x rest IH]; intros m.
  - simpl. now rewrite app_nil_r.
  - rewrite groupWindows_cons, IH, windowsOf_cons.
    destruct (String.eqb_spec (WindowInfo.appName x) name) as [<-|Hne].
    + rewrite addWindow_get_same, <- app_assoc. reflexivity.
    + unfold windowsAt at 1. now rewrite addWindow_get_other.
Qed.

Lemma groupWindows_keys (windows : list WindowInfo.t) (name : string)
    (m : JsMap ApplicationWindows.t) :
  In name (map_keys (groupWindows windows m))
  <-> In name (map_keys m) \/ In name (List.map WindowInfo.appName windows).
Proof.
  revert m. induction windows as [|x rest IH]; intros m.
  - simpl. tauto.
  - rewrite groupWindows_cons, IH, addWindow_keys. simpl.
    unfold map_has.
    destruct (map_get (WindowInfo.appName x) m) as [g|] eqn:E.
    + apply map_get_In in E.
      assert (In (WindowInfo.appName x) (map_keys m))
        by (change (WindowInfo.appName x) with (fst (WindowInfo.appName x, g));
            now apply in_map).
      split; [tauto|]. intros [H'|[<-|H']]; tauto.
    + rewrite in_app_iff. simpl. tauto.
Qed.

Lemma groupWindows_named (windows : list WindowInfo.t)
    (m : JsMap ApplicationWindows.t) :
  named m -> named (groupWindows windows m).
Proof.
  revert m. induction windows as [|x rest IH]; intros m Hm; [assumption|].
  rewrite groupWindows_cons. now apply IH, addWindow_named.
Qed.

Lemma groupWindows_NoDup (windows : list WindowInfo.t)
    (m : JsMap ApplicationWindows.t) :
  NoDup (map_keys m) -> NoDup (map_keys (groupWindows windows m)).
Proof.
  revert m. induction windows as [|x rest IH]; intros m Hm; [assumption|].
  rewrite groupWindows_cons. now apply IH, addWindow_NoDup.
Qed.

Lemma named_keys (m : JsMap ApplicationWindows.t) :
  named m -> List.map ApplicationWindows.appName (map_values m) = map_keys m.
Proof.
  intros Hm. unfold map_values, map_keys. rewrite map_map.
  apply map_ext_in. intros [k g] Hin. simpl. now apply Hm.
Qed.

Lemma windowsOf_nonempty (name : string) (windows : list WindowInfo.t) :
  In name (List.map WindowInfo.appName windows) -> windowsOf name windows <> [].
Proof.
  induction windows as [|x rest IH]; simpl; [contradiction|].
  rewrite windowsOf_cons.
  destruct (String.eqb_spec (WindowInfo.appName x) name) as [E|E];
    [discriminate|].
  intros [H|H]; [contradiction | now apply IH].
Qed.

(** What the grouping and the sort make of a list of windows. *)
Lemma grouped_sorted (cmp : string -> string -> Z) (windows : list WindowInfo.t) :
  (forall x y, (cmp x y <= 0)%Z \/ (cmp y x <= 0)%Z) ->
  (forall x y z, (cmp x y <= 0)%Z -> (cmp y z <= 0)%Z -> (cmp x z <= 0)%Z) ->
  let byName := fun a b =>
    cmp (ApplicationWindows.appName a) (ApplicationWindows.appName b) in
  let groups := sort byName (map_values (groupWindows windows [])) in
  NoDup (List.map ApplicationWindows.appName groups) /\
  (forall g, In g groups ->
     ApplicationWindows.windows g
     = windowsOf (ApplicationWindows.appName g) windows /\
     ApplicationWindows.windows g <> []) /\
  (forall x, In x windows ->
     In (WindowInfo.appName x) (List.map ApplicationWindows.appName groups)) /\
  StronglySorted (inOrder byName) groups.
Proof.
  intros Htotal Htrans byName groups.
  set (m := groupWindows windows []).
  assert (Hnamed : named m) by (apply groupWindows_named; intros k g []).
  assert (Hnd : NoDup (map_keys m)) by (apply groupWindows_NoDup; constructor).
  assert (Hperm : Permutation groups (map_values m)) by apply sort_perm.
  assert (Hnames : Permutation (List.map ApplicationWindows.appName groups)
                     (map_keys m)).
  { rewrite <- (named_keys m Hnamed). now apply Permutation_map. }
  repeat split.
  - apply (Permutation_NoDup (Permutation_sym Hnames) Hnd).
  - apply (Permutation_in _ Hperm) in H.
    unfold map_values in H. apply in_map_iff in H.
    destruct H as ([k g'] & <- & Hin). simpl.
    rewrite (Hnamed k g' Hin).
    pose proof (groupWindows_windowsAt windows k []) as Hat.
    fold m in Hat. unfold windowsAt in Hat.
    rewrite (map_In_get k g' m Hnd Hin) in Hat. exact Hat.
  - apply (Permutation_in _ Hperm) in H.
    unfold map_values in H. apply in_map_iff in H.
    destruct H as ([k g'] & <- & Hin). simpl.
    pose proof (groupWindows_windowsAt windows k []) as Hat.
    fold m in Hat. unfold windowsAt in Hat.
    rewrite (map_In_get k g' m Hnd Hin) in Hat. rewrite Hat. simpl.
    apply windowsOf_nonempty.
    assert (Hk : In k (map_keys m))
      by (change k with (fst (k, g')); now apply in_map).
    apply groupWindows_keys in Hk. destruct Hk as [[]|Hk]. exact Hk.
  - intros x Hx. apply (Permutation_in _ (Permutation_sym Hnames)).
    apply groupWindows_keys. right. now apply in_map.
  - apply sort_sorted; unfold inOrder, byName; auto.
    intros x y z. apply Htrans.
Qed.

(** ** Forced refresh *)

Section Refresh.
Context {rt : Runtime} (env : Env).

Lemma round_forced_log (x a t : string) (w : World) :
  pairOf x = Some (a, t) ->
  log (snd (resolveWindowString env true x w))
  = (log w ++ [Exec (GetWindowID a t)])%list.
Proof.
  intros Hp. rewrite (round_forced env x a t w Hp). simpl.
  destruct (execAsync env (log w) (GetWindowID a t)) as [e|stdout]; [reflexivity|].
  now destruct (parseInt (trim stdout)).
Qed.

(** With a forced refresh the loop makes one lookup per pair, in order. *)
Lemma windowLoop_forced_log (pairs : list (string * string)) :
  (forall p, In p pairs -> pairOf (keyOf p) = Some p) ->
  forall (acc : list WindowInfo.t) (w : World),
    log (snd (windowLoop env true (List.map keyOf pairs) acc w))
    = (log w ++ List.map lookupCall pairs)%list.
Proof.
  induction pairs as [|[a t] rest IH]; intros Hwf acc w.
  - simpl. now rewrite app_nil_r.
  - assert (Hp : pairOf (keyOf (a, t)) = Some (a, t)) by (apply Hwf; now left).
    pose proof (round_forced_log _ a t w Hp) as Hlog.
    destruct (round_total env true (keyOf (a, t)) w) as (pushed & w1 & Hrun).
    rewrite Hrun in Hlog. simpl in Hlog.
    simpl. unfold bind. rewrite Hrun, IH, Hlog, <- app_assoc; [reflexivity|].
    intros p Hin. apply Hwf. now right.
Qed.

Lemma answers_later (w w1 : World) (a t : string) (n : Z) (calls : list Call) :
  log w1 = (log w ++ calls)%list -> answers env w a t n -> answers env w1 a t n.
Proof.
  intros Hlog Ha extra. rewrite Hlog, <- app_assoc. apply Ha.
Qed.

(** The round of one pair leaves the entries of the other pairs alone, and
    stores the number printed for its own. *)
Lemma round_forced_entry (a0 t0 a t : string) (n : Z) (w : World) :
  pairOf (keyOf (a0, t0)) = Some (a0, t0) ->
  pairOf (keyOf (a, t)) = Some (a, t) ->
  answers env w a t n ->
  let w1 := snd (resolveWindowString env true (keyOf (a0, t0)) w) in
  ((a0, t0) = (a, t) -> entryFor (cache w1) a t n) /\
  (entryFor (cache w) a t n -> entryFor (cache w1) a t n).
Proof.
  intros Hp0 Hp Hans w1. subst w1. rewrite (round_forced env _ a0 t0 w Hp0).
  split.
  - intros [= -> ->]. destruct (Hans []) as (stdout & Hexec & Hparse).
    rewrite app_nil_r in Hexec. simpl. rewrite Hexec, Hparse. simpl.
    eexists. split; [apply map_get_set_same | auto].
  - intros Hentry.
    destruct (string_dec (keyOf (a0, t0)) (keyOf (a, t))) as [Hk|Hk].
    + assert (E : Some (a0, t0) = Some (a, t)) by (rewrite <- Hp0, <- Hp; now rewrite Hk).
      injection E as -> ->.
      destruct (Hans []) as (stdout & Hexec & Hparse).
      rewrite app_nil_r in Hexec. simpl. rewrite Hexec, Hparse. simpl.
      eexists. split; [apply map_get_set_same | auto].
    + simpl.
      destruct (execAsync env (log w) (GetWindowID a0 t0)) as [e|stdout];
        [exact Hentry|].
      destruct (parseInt (trim stdout)) as [m|]; [|exact Hentry].
      simpl. destruct Hentry as (e & He & Hrest).
      exists e. split; [|exact Hrest].
      unfold WindowCache.set. now rewrite map_get_set_other.
Qed.

Lemma windowLoop_forced_entry (pairs : list (string * string)) (a t : string)
    (n : Z) :
  (forall p, In p pairs -> pairOf (keyOf p) = Some p) ->
  pairOf (keyOf (a, t)) = Some (a, t) ->
  forall (acc : list WindowInfo.t) (w : World),
    answers env w a t n ->
    let w' := snd (windowLoop env true (List.map keyOf pairs) acc w) in
    (In (a, t) pairs -> entryFor (cache w') a t n) /\
    (entryFor (cache w) a t n -> entryFor (cache w') a t n).
Proof.
  intros Hwf Hp. induction pairs as [|[a0 t0] rest IH]; intros acc w Hans.
  - simpl. split; [contradiction | trivial].
  - assert (Hp0 : pairOf (keyOf (a0, t0)) = Some (a0, t0))
      by (apply Hwf; now left).
    assert (Hrest : forall p, In p rest -> pairOf (keyOf p) = Some p)
      by (intros p Hin; apply Hwf; now right).
    destruct (round_forced_entry a0 t0 a t n w Hp0 Hp Hans) as [Hnew Hkeep].
    pose proof (round_forced_log _ a0 t0 w Hp0) as Hlog.
    destruct (round_total env true (keyOf (a0, t0)) w) as (pushed & w1 & Hrun).
    rewrite Hrun in Hnew, Hkeep, Hlog. simpl in Hnew, Hkeep, Hlog.
    simpl. unfold bind. rewrite Hrun.
    match goal with
    | |- context [windowLoop env true _ ?acc1 w1] =>
        destruct (IH Hrest acc1 w1 (answers_later w w1 a t n _ Hlog Hans))
          as [Hin' Hkeep']
    end.
    split.
    + intros [E|Hin]; [apply Hkeep', Hnew, E | now apply Hin'].
    + intros Hentry. now apply Hkeep', Hkeep.
Qed.
End Refresh.

(** ** What is listed *)

Lemma strip_prefix_app (sub a q rest : string) :
  strip_prefix sub a = Some rest ->
  strip_prefix sub (a +++ q) = Some (rest +++ q).
Proof.
  intros H. apply strip_prefix_Some in H. subst a.
  rewrite append_assoc. apply strip_prefix_append.
Qed.

Lemma includes_app_l (sub a q : string) :
  includes sub a = true -> includes sub (a +++ q) = true.
Proof.
  induction a as [|c a IH]; simpl.
  - destruct (strip_prefix sub EmptyString) as [r|] eqn:E; [|discriminate].
    intros _. apply (includes_prefix _ _ (r +++ q)).
    now apply (strip_prefix_app sub EmptyString q r).
  - destruct (strip_prefix sub (String c a)) as [r|] eqn:E.
    + intros _. apply (strip_prefix_app _ _ q) in E. simpl in E. now rewrite E.
    + intros H. destruct (strip_prefix sub (String c (a +++ q))); auto.
Qed.

Lemma includes_app_r (sub p t : string) :
  includes sub t = true -> includes sub (p +++ t) = true.
Proof.
  intros H. induction p as [|c p IH]; simpl; [assumption|].
  now destruct (strip_prefix sub (String c (p +++ t))).
Qed.

Lemma includes_false_app (sub a b : string) :
  includes sub (a +++ b) = false ->
  includes sub a = false /\ includes sub b = false.
Proof.
  intros H. split.
  - destruct (includes sub a) eqn:E; [|reflexivity].
    now rewrite (includes_app_l sub a b E) in H.
  - destruct (includes sub b) eqn:E; [|reflexivity].
    now rewrite (includes_app_r sub a b E) in H.
Qed.

Section Listed.
Context {rt : Runtime} (env : Env).

Lemma Listing_pairs (forceRefresh : bool) (pairs : list (string * string))
    (w : World) (windows : list WindowInfo.t) :
  Listing env forceRefresh pairs w windows ->
  forall x, In x windows ->
    In (WindowInfo.appName x, WindowInfo.windowTitle x) pairs /\
    (WindowInfo.windowId x > 0)%Z.
Proof.
  induction 1 as [w | a t n rest w windows Hh Hpos Hl IH
                    | a t rest w windows Hh Hl IH]; intros x Hx.
  - contradiction.
  - destruct Hx as [<-|Hx]; simpl.
    + split; [now left | assumption].
    + destruct (IH x Hx). split; [now right | assumption].
  - destruct (IH x Hx). split; [now right | assumption].
Qed.

(** [Listing] leaves no choice: the pairs and the world fix the windows. *)
Lemma Listing_functional (forceRefresh : bool) (pairs : list (string * string))
    (w : World) (windows windows' : list WindowInfo.t) :
  Listing env forceRefresh pairs w windows ->
  Listing env forceRefresh pairs w windows' ->
  windows = windows'.
Proof.
  intros H. revert windows'.
  induction H as [w | a t n rest w windows Hh Hpos Hl IH
                    | a t rest w windows Hh Hl IH];
    intros windows' H'; inversion H' as [| ? ? n' ? ? ? Hh' Hpos' Hl'
                                           | ? ? ? ? ? Hh' Hl']; subst.
  - reflexivity.
  - rewrite Hh in Hh'. injection Hh' as <-. f_equal. now apply IH.
  - apply Hh' in Hh. lia.
  - apply Hh in Hh'. lia.
  - now apply IH.
Qed.

(** Whatever the round of a pair calls is one lookup of that pair. *)
Lemma round_log (forceRefresh : bool) (x a t : string) (w : World) :
  pairOf x = Some (a, t) ->
  exists calls,
    log (snd (resolveWindowString env forceRefresh x w)) = (log w ++ calls)%list /\
    (calls = [] \/ calls = [lookupCall (a, t)]).
Proof.
  intros Hp. destruct forceRefresh.
  - exists [lookupCall (a, t)]. split; [|now right].
    apply (round_forced_log env x a t w Hp).
  - apply pairOf_Some in Hp. unfold resolveWindowString. rewrite Hp.
    unfold bind at 1 2. unfold windowCache_get. simpl.
    destruct (WindowCache.get (clock w) a t (cache w)) as [r c]. simpl.
    unfold ret at 1.
    destruct (Z.eqb_spec (orZero r) 0) as [Hz|Hz].
    + exists [lookupCall (a, t)]. split; [|now right].
      unfold bind, try_catch, await_exec, perform, ret. simpl.
      destruct (execAsync env (log w) (GetWindowID a t)) as [e|stdout];
        [reflexivity|].
      destruct (parseInt (trim stdout)) as [n|]; [|reflexivity].
      unfold windowCache_set. simpl. now destruct (n >? 0)%Z.
    + exists []. split; [|now left].
      unfold bind, ret. simpl. rewrite app_nil_r.
      now destruct (orZero r >? 0)%Z.
Qed.

Lemma windowLoop_log (forceRefresh : bool) (pairs : list (string * string)) :
  (forall p, In p pairs -> pairOf (keyOf p) = Some p) ->
  forall (acc : list WindowInfo.t) (w : World),
  exists calls,
    log (snd (windowLoop env forceRefresh (List.map keyOf pairs) acc w))
    = (log w ++ calls)%list /\
    forall c, In c calls -> exists p, In p pairs /\ c = lookupCall p.
Proof.
  induction pairs as [|[a t] rest IH]; intros Hwf acc w.
  - exists []. simpl. rewrite app_nil_r. split; [reflexivity | contradiction].
  - assert (Hp : pairOf (keyOf (a, t)) = Some (a, t)) by (apply Hwf; now left).
    assert (Hrest : forall p, In p rest -> pairOf (keyOf p) = Some p)
      by (intros p Hin; apply Hwf; now right).
    destruct (round_log forceRefresh _ a t w Hp) as (calls0 & Hlog0 & Hcalls0).
    destruct (round_total env forceRefresh (keyOf (a, t)) w)
      as (pushed & w1 & Hrun).
    rewrite Hrun in Hlog0. simpl in Hlog0.
    simpl. unfold bind. rewrite Hrun.
    match goal with
    | |- context [windowLoop env forceRefresh _ ?acc1 w1] =>
        destruct (IH Hrest acc1 w1) as (calls & Hlog & Hcalls)
    end.
    exists (calls0 ++ calls)%list. split.
    + now rewrite Hlog, Hlog0, <- app_assoc.
    + intros c Hc. apply in_app_or in Hc. destruct Hc as [Hc|Hc].
      * destruct Hcalls0 as [->| ->]; [contradiction|].
        destruct Hc as [<-|[]]. exists (a, t). split; [now left | reflexivity].
      * destruct (Hcalls c Hc) as (p & Hin & ->). exists p. split; [now right | reflexivity].
Qed.

Lemma enumeratedStrings_clean (w : World) (x : string) :
  In x (enumeratedStrings env w) -> includes ", " x = false.
Proof.
  unfold enumeratedStrings.
  destruct (execAsync env (log w) (Osascript GetWindowsScript)) as [e|stdout];
    [contradiction|].
  destruct (truthy (trim stdout)); [|contradiction].
  apply split_pieces_clean. discriminate.
Qed.
End Listed.

(** ** The listing *)

Section ListAll.
Context {rt : Runtime} (env : Env).

(** C5, amended -- [listAll] never throws and returns exactly the
    enumerated pairs that resolve to a positive handle (a pair whose lookup is
    rejected, prints no number or prints a number that is not positive is
    left out), one group per application name that has such a window, every
    group holding its windows in enumeration order, the groups in the order
    of [localeCompare], taken to be a consistent comparator. *)
Theorem listAll_groups_positive_handles (forceRefresh : bool) (w : World) :
  (forall a b, (localeCompare a b <= 0)%Z \/ (localeCompare b a <= 0)%Z) ->
  (forall a b c, (localeCompare a b <= 0)%Z -> (localeCompare b c <= 0)%Z ->
                 (localeCompare a c <= 0)%Z) ->
  exists (windows : list WindowInfo.t) (groups : list ApplicationWindows.t)
         (w' : World),
    getApplicationWindowsList env forceRefresh w = (Returned groups, w') /\
    Listing env forceRefresh (enumeratedPairs env w)
      (afterCall env (Exec (Osascript GetWindowsScript)) w) windows /\
    NoDup (List.map ApplicationWindows.appName groups) /\
    (forall g, In g groups ->
       ApplicationWindows.windows g
       = windowsOf (ApplicationWindows.appName g) windows /\
       ApplicationWindows.windows g <> []) /\
    (forall x, In x windows ->
       In (WindowInfo.appName x) (List.map ApplicationWindows.appName groups)) /\
    StronglySorted (inOrder compareApps) groups.
Proof.
  intros Htotal Htrans.
  destruct (getWindowList_Listing env forceRefresh w)
    as (windows & w' & Hrun & Hlist).
  exists windows, (sort compareApps (map_values (groupWindows windows []))), w'.
  split; [|split; [exact Hlist|]].
  - unfold getApplicationWindowsList, bind. now rewrite Hrun.
  - exact (grouped_sorted localeCompare windows Htotal Htrans).
Qed.

(** C6 -- forced refresh: [listAll(true)] never reads the cache; after the
    enumeration it calls [GetWindowID] once for each enumerated pair, in
    order, whatever the cache holds, and a pair for which the facility prints
    the number [n] ends with the cache entry of its key holding [n]. *)
Theorem forced_refresh_looks_up_every_pair (w : World) :
  exists (windows : list WindowInfo.t) (w' : World),
    getWindowList env true w = (Returned windows, w') /\
    log w' = (log w ++ Exec (Osascript GetWindowsScript)
                    :: List.map lookupCall (enumeratedPairs env w))%list /\
    forall (a t : string) (n : Z),
      In (a, t) (enumeratedPairs env w) ->
      answers env w a t n ->
      entryFor (cache w') a t n.
Proof.
  destruct (getWindowList_Listing env true w) as (windows & w' & Hrun & _).
  exists windows, w'. split; [exact Hrun|].
  rewrite getWindowList_run, windowLoop_pairs in Hrun.
  fold (enumeratedPairs env w) in Hrun.
  set (w1 := afterCall env (Exec (Osascript GetWindowsScript)) w) in Hrun.
  assert (Hw' : w' = snd (windowLoop env true
                            (List.map keyOf (enumeratedPairs env w)) [] w1))
    by now rewrite Hrun.
  assert (Hlog1 : log w1 = (log w ++ [Exec (Osascript GetWindowsScript)])%list)
    by reflexivity.
  split.
  - rewrite Hw', windowLoop_forced_log by apply pairsOf_wf.
    rewrite Hlog1, <- app_assoc. reflexivity.
  - intros a t n Hin Hans. rewrite Hw'.
    destruct (windowLoop_forced_entry env (enumeratedPairs env w) a t n
                (pairsOf_wf _) (pairsOf_wf _ _ Hin) [] w1
                (answers_later env w w1 a t n _ Hlog1 Hans)) as [Hnew _].
    exact (Hnew Hin).
Qed.

(** C10 -- parsing: the enumeration output is trimmed and split at [", "],
    each element is split at ["|||"], and only the elements with exactly two
    fields are looked up and listed. So [listAll] returns for every output,
    however malformed, and a listed title never holds [", "] or ["|||"]: a
    window whose title holds one of them is listed under another title or
    not at all. *)
Theorem listing_skips_malformed_elements (forceRefresh : bool) (w : World) :
  exists (windows : list WindowInfo.t) (groups : list ApplicationWindows.t)
         (w' : World) (calls : list Call),
    getWindowList env forceRefresh w = (Returned windows, w') /\
    getApplicationWindowsList env forceRefresh w = (Returned groups, w') /\
    log w' = (log w ++ Exec (Osascript GetWindowsScript) :: calls)%list /\
    (forall c, In c calls ->
       exists element a t,
         In element (enumeratedStrings env w) /\
         split "|||" element = [a; t] /\
         c = Exec (GetWindowID a t)) /\
    (forall x, In x windows ->
       (exists element,
           In element (enumeratedStrings env w) /\
           split "|||" element
           = [WindowInfo.appName x; WindowInfo.windowTitle x]) /\
       includes ", " (WindowInfo.windowTitle x) = false /\
       includes "|||" (WindowInfo.windowTitle x) = false).
Proof.
  destruct (getWindowList_Listing env forceRefresh w)
    as (windows & w' & Hrun & Hlist).
  pose proof Hrun as Hloop.
  rewrite getWindowList_run, windowLoop_pairs in Hloop.
  fold (enumeratedPairs env w) in Hloop.
  set (w1 := afterCall env (Exec (Osascript GetWindowsScript)) w) in *.
  destruct (windowLoop_log env forceRefresh (enumeratedPairs env w)
              (pairsOf_wf _) [] w1) as (calls & Hlog & Hcalls).
  rewrite Hloop in Hlog. simpl in Hlog.
  exists windows, (sort compareApps (map_values (groupWindows windows []))),
    w', calls.
  split; [exact Hrun|]. split; [|split; [|split]].
  - unfold getApplicationWindowsList, bind. now rewrite Hrun.
  - rewrite Hlog. unfold w1, afterCall. simpl. now rewrite <- app_assoc.
  - intros c Hc. destruct (Hcalls c Hc) as ([a t] & Hin & ->).
    destruct (pairsOf_In _ _ Hin) as (element & Hel & Hp).
    exists element, a, t. repeat split; [assumption | now apply pairOf_Some].
  - intros x Hx. destruct (Listing_pairs env _ _ _ _ Hlist x Hx) as [Hin _].
    destruct (pairsOf_In _ _ Hin) as (element & Hel & Hp).
    apply pairOf_Some in Hp.
    split; [exists element; now split|].
    split.
    + pose proof (enumeratedStrings_clean env w element Hel) as Hclean.
      rewrite (split_two "|||" element _ _ ltac:(discriminate) Hp) in Hclean.
      apply includes_false_app in Hclean. destruct Hclean as [_ Hclean].
      apply includes_false_app in Hclean. now destruct Hclean.
    + apply (split_pieces_clean "|||" element); [discriminate|].
      rewrite Hp. right. now left.
Qed.
End ListAll.

(** ** The example runtime and the scenarios *)

Lemma byteCompare_total (a b : string) :
  (byteCompare a b <= 0)%Z \/ (byteCompare b a <= 0)%Z.
Proof.
  revert b. induction a as [|x a IH]; intros [|y b]; simpl; try lia.
  rewrite (N.compare_antisym (N_of_ascii x) (N_of_ascii y)).
  destruct (N_of_ascii x ?= N_of_ascii y)%N; simpl; try lia. apply IH.
Qed.

Lemma byteCompare_trans (a b c : string) :
  (byteCompare a b <= 0)%Z -> (byteCompare b c <= 0)%Z ->
  (byteCompare a c <= 0)%Z.
Proof.
  revert b c. induction a as [|x a IH]; intros [|y b] [|z c]; simpl; try lia.
  destruct (N.compare_spec (N_of_ascii x) (N_of_ascii y)) as [Exy|Lxy|Gxy];
    destruct (N.compare_spec (N_of_ascii y) (N_of_ascii z)) as [Eyz|Lyz|Gyz];
    destruct (N.compare_spec (N_of_ascii x) (N_of_ascii z)) as [Exz|Lxz|Gxz];
    try lia.
  apply IH.
Qed.

(** The end-to-end scenario: three enumerated windows of two applications,
    resolved to the handles 10, 11 and 12, are listed in two groups, and
    the cache then holds three entries. *)
Example end_to_end_scenario :
  exists w' : World,
    getApplicationWindowsList (rt := asciiRuntime) scenarioEnv false freshWorld
    = (Returned
         [ApplicationWindows.mk "Figma"
            [AppWindow.mk 10 "Design A"; AppWindow.mk 11 "Design B"];
          ApplicationWindows.mk "Mail" [AppWindow.mk 12 "Inbox"]],
       w') /\
    map_size (cache w') = 3%nat /\
    lookups (log w')
    = [Exec (GetWindowID "Figma" "Design A");
       Exec (GetWindowID "Figma" "Design B");
       Exec (GetWindowID "Mail" "Inbox")].
Proof. eexists. vm_compute. repeat split. Qed.

(** The window of Notes titled ["Hello, world"] is listed under the title
    ["Hello"], the window of Mail titled ["a|||b"] is not listed, and
    nothing is thrown. *)
Example cluttered_enumeration :
  enumeratedStrings (rt := asciiRuntime) clutteredEnv freshWorld
  = ["Notes|||Hello"; "world"; "Mail|||a|||b"; "Mail|||Inbox"] /\
  fst (getWindowList (rt := asciiRuntime) clutteredEnv false freshWorld)
  = Returned [WindowInfo.mk 5 "Notes" "Hello"; WindowInfo.mk 5 "Mail" "Inbox"] /\
  lookups (log (snd (getWindowList (rt := asciiRuntime) clutteredEnv false
                       freshWorld)))
  = [Exec (GetWindowID "Notes" "Hello"); Exec (GetWindowID "Mail" "Inbox")].
Proof. repeat split. Qed.

(** C4, as first stated, fails: [clear()] returns the same value, the one
    that stands for [void], when it removes three entries and when it
    removes none. *)
Lemma clear_returns_no_count :
  let full := snd (getWindowList (rt := asciiRuntime) scenarioEnv false freshWorld) in
  map_size (cache full) = 3%nat /\
  map_size (cache freshWorld) = 0%nat /\
  fst (windowCache_clear full) = Returned tt /\
  fst (windowCache_clear freshWorld) = Returned tt /\
  map_size (cache (snd (windowCache_clear full))) = 0%nat.
Proof. repeat split. Qed.

(** C1 -- the code at the failing input: an entry stored at time 0 is
    expired at time 30001, [windowCache.get] treats it as absent, and the scan
    of [getFirstWindowIdForApp] still returns its handle, in every world. *)
Theorem expired_entry_served_by_fast_path (env : Env) :
  let stored := WindowCache.set 0 "Figma" "Design A" 10 WindowCache.empty in
  let w := {| cache := stored; clock := 30001; log := [] |} in
  (clock w - 0 > WindowCache.CACHE_TTL)%Z /\
  fst (windowCache_get "Figma" "Design A" w) = Returned None /\
  getFirstWindowIdForApp (rt := asciiRuntime) env "figma" w
  = (Returned 10%Z, w).
Proof.
  intros stored w. split; [|split].
  - unfold WindowCache.CACHE_TTL. simpl. lia.
  - apply (windowCache_get_expired w "Figma" "Design A"
             (CachedWindow.mk 10 "Figma" "Design A" 0)).
    + reflexivity.
    + unfold WindowCache.CACHE_TTL. simpl. lia.
  - apply (getFirstWindowIdForApp_scan (rt := asciiRuntime) env w "figma"
             (CachedWindow.mk 10 "Figma" "Design A" 0)).
    reflexivity.
Qed.

Lemma resolveNamedWindow_cache_hit_witness :
  let w := snd (getWindowList (rt := asciiRuntime) scenarioEnv false freshWorld) in
  resolveNamedWindow (rt := asciiRuntime) scenarioEnv "Figma" "Design B" w
  = (Returned 11%Z, w).
Proof.
  apply (resolveNamedWindow_cache_hit (rt := asciiRuntime) scenarioEnv
           (snd (getWindowList (rt := asciiRuntime) scenarioEnv false freshWorld))
           "Figma" "Design B" (CachedWindow.mk 11 "Figma" "Design B" 15)).
  - reflexivity.
  - vm_compute. discriminate.
  - discriminate.
Defined.

(** C2, as first stated, fails: [GetWindowID] prints 0, the [windowName]
    path stores that handle; asked again at once, with the entry unexpired,
    it calls [GetWindowID] a second time and returns what is printed then. *)
Lemma cached_zero_handle_is_looked_up :
  let first := resolveNamedWindow (rt := asciiRuntime) zeroThenSeven
                 "App" "Win" freshWorld in
  let w1 := snd first in
  let second := resolveNamedWindow (rt := asciiRuntime) zeroThenSeven
                  "App" "Win" w1 in
  fst first = Returned 0%Z /\
  map_get (WindowCache.getCacheKey "App" "Win") (cache w1)
  = Some (CachedWindow.mk 0 "App" "Win" 5) /\
  (clock w1 - 5 <= WindowCache.CACHE_TTL)%Z /\
  lookups (log w1) = [Exec (GetWindowID "App" "Win")] /\
  fst second = Returned 7%Z /\
  lookups (log (snd second))
  = [Exec (GetWindowID "App" "Win"); Exec (GetWindowID "App" "Win")].
Proof.
  repeat split; try reflexivity. vm_compute. discriminate.
Qed.

Lemma first_window_fast_path_witness :
  let w := {| cache := WindowCache.set 0 "Figma" "Design A" 10 WindowCache.empty;
              clock := 100; log := [] |} in
  exists (found : CachedWindow.t) (older newer : list CachedWindow.t),
    map_values (cache w) = (older ++ found :: newer)%list /\
    lowerString (CachedWindow.appName found) = lowerString "figma" /\
    (forall x, In x older ->
               lowerString (CachedWindow.appName x) <> lowerString "figma") /\
    getFirstWindowIdForApp (rt := asciiRuntime) scenarioEnv "figma" w
    = (Returned (CachedWindow.windowId found), w).
Proof.
  apply (first_window_fast_path (rt := asciiRuntime) scenarioEnv
           {| cache := WindowCache.set 0 "Figma" "Design A" 10 WindowCache.empty;
              clock := 100; log := [] |}
           "figma" (CachedWindow.mk 10 "Figma" "Design A" 0)).
  - simpl. now left.
  - reflexivity.
Defined.

Lemma capture_without_file_fails_witness :
  exists w' : World,
    capture silentCapture (Screencapture None "/work/screenshots/shot.png")
      "/work/screenshots/shot.png" EmptyString freshWorld
    = (Returned [Text "Screenshot failed to save."], w') /\
    log w' = [Exec (Screencapture None "/work/screenshots/shot.png");
              ExistsSync "/work/screenshots/shot.png"].
Proof.
  apply (proj1 (capture_without_file_fails (rt := asciiRuntime) silentCapture)
           freshWorld (Screencapture None "/work/screenshots/shot.png")
           "/work/screenshots/shot.png" EmptyString EmptyString);
    reflexivity.
Defined.

Lemma listAll_groups_positive_handles_witness :
  exists (windows : list WindowInfo.t) (groups : list ApplicationWindows.t)
         (w' : World),
    getApplicationWindowsList (rt := asciiRuntime) scenarioEnv false freshWorld
    = (Returned groups, w') /\
    Listing (rt := asciiRuntime) scenarioEnv false
      (enumeratedPairs (rt := asciiRuntime) scenarioEnv freshWorld)
      (afterCall scenarioEnv (Exec (Osascript GetWindowsScript)) freshWorld)
      windows /\
    NoDup (List.map ApplicationWindows.appName groups) /\
    (forall g, In g groups ->
       ApplicationWindows.windows g
       = windowsOf (ApplicationWindows.appName g) windows /\
       ApplicationWindows.windows g <> []) /\
    (forall x, In x windows ->
       In (WindowInfo.appName x) (List.map ApplicationWindows.appName groups)) /\
    StronglySorted (inOrder (compareApps (rt := asciiRuntime))) groups.
Proof.
  apply (listAll_groups_positive_handles (rt := asciiRuntime) scenarioEnv false
           freshWorld byteCompare_total byteCompare_trans).
Defined.

(** C5, as first stated, fails: the lookup of the one enumerated pair
    succeeds, it prints the integer 0, which the loop stores in the cache as
    the handle of the pair, and the listing is empty. *)
Lemma zero_handle_is_not_listed :
  let listing := getApplicationWindowsList (rt := asciiRuntime) zeroThenSeven
                   false freshWorld in
  enumeratedPairs (rt := asciiRuntime) zeroThenSeven freshWorld
  = [("App", "Win")] /\
  execAsync zeroThenSeven [Exec (Osascript GetWindowsScript)]
    (GetWindowID "App" "Win") = Resolved "0" /\
  parseInt (Runtime := asciiRuntime) (trim (Runtime := asciiRuntime) "0")
  = Some 0%Z /\
  fst listing = Returned [] /\
  lookups (log (snd listing)) = [Exec (GetWindowID "App" "Win")] /\
  map_get (WindowCache.getCacheKey "App" "Win") (cache (snd listing))
  = Some (CachedWindow.mk 0 "App" "Win" 10).
Proof. repeat split; reflexivity. Qed.

Lemma forced_refresh_looks_up_every_pair_witness :
  let hot := {| cache := WindowCache.set 0 "Figma" "Design A" 99 WindowCache.empty;
                clock := 100; log := [] |} in
  fst (windowCache_get "Figma" "Design A" hot) = Returned (Some 99%Z) /\
  exists (windows : list WindowInfo.t) (w' : World),
    getWindowList (rt := asciiRuntime) scenarioEnv true hot
    = (Returned windows, w') /\
    lookups (log w')
    = [Exec (GetWindowID "Figma" "Design A");
       Exec (GetWindowID "Figma" "Design B");
       Exec (GetWindowID "Mail" "Inbox")] /\
    entryFor (cache w') "Figma" "Design A" 10.
Proof.
  intros hot. split; [reflexivity|].
  destruct (forced_refresh_looks_up_every_pair (rt := asciiRuntime)
              scenarioEnv hot) as (windows & w' & Hrun & Hlog & Hentry).
  exists windows, w'. split; [exact Hrun|]. split.
  - rewrite Hlog. reflexivity.
  - apply Hentry.
    + simpl. now left.
    + intros extra. exists "10". split; reflexivity.
Defined.

(** * Further properties of the cache *)

(** X1 -- round trip: a lookup of the stored pair no more than the TTL
    after the store, the limit included, returns the stored handle and
    leaves the cache as it is. *)
Theorem lookup_within_ttl_returns_stored
    (cache : WindowCache.t) (a b : string) (h t0 t1 : Z) :
  (t1 - t0 <= WindowCache.CACHE_TTL)%Z ->
  let stored := WindowCache.set t0 a b h cache in
  WindowCache.get t1 a b stored = (Some h, stored).
Proof.
  intros Hage stored. unfold WindowCache.get, stored, WindowCache.set.
  rewrite map_get_set_same. simpl.
  destruct (Z.gtb_spec (t1 - t0) WindowCache.CACHE_TTL); [lia | reflexivity].
Qed.

Lemma lookup_within_ttl_returns_stored_witness :
  let stored := WindowCache.set 1000 "Mail" "Inbox" 12 WindowCache.empty in
  WindowCache.get 31000 "Mail" "Inbox" stored = (Some 12%Z, stored).
Proof.
  apply (lookup_within_ttl_returns_stored WindowCache.empty "Mail" "Inbox"
           12 1000 31000).
  unfold WindowCache.CACHE_TTL. lia.
Defined.

Lemma map_size_set {V : Type} (k : string) (v : V) (m : JsMap V) :
  map_size (map_set k v m)
  = if map_has k m then map_size m else S (map_size m).
Proof.
  unfold map_size. rewrite <- !(length_map fst).
  change (List.map fst (map_set k v m)) with (map_keys (map_set k v m)).
  rewrite map_keys_set. destruct (map_has k m); [reflexivity|].
  unfold map_keys. rewrite length_app. simpl. lia.
Qed.

Lemma map_has_set {V : Type} (k : string) (v : V) (m : JsMap V) :
  map_has k (map_set k v m) = true.
Proof. unfold map_has. now rewrite map_get_set_same. Qed.

(** X2 -- last write wins: a store adds one entry at the end when the key
    is new; on a key that is there it replaces the entry in place, so that
    the keys, their order and the size stay, and the lookup returns the
    second handle. *)
Theorem store_overwrites_in_place
    (cache : WindowCache.t) (a b : string) (h1 h2 t0 t1 : Z) :
  let key := WindowCache.getCacheKey a b in
  let once := WindowCache.set t0 a b h1 cache in
  let twice := WindowCache.set t1 a b h2 once in
  map_keys once
  = (if map_has key cache then map_keys cache else map_keys cache ++ [key])%list /\
  map_keys twice = map_keys once /\
  map_size twice = map_size once /\
  map_get key twice = Some (CachedWindow.mk h2 a b t1) /\
  WindowCache.get t1 a b twice = (Some h2, twice) /\
  (forall k, k <> key -> map_get k twice = map_get k cache).
Proof.
  intros key once twice. unfold twice, once, WindowCache.set. fold key.
  repeat split.
  - apply map_keys_set.
  - rewrite (map_keys_set key _ (map_set key _ cache)).
    now rewrite map_has_set.
  - rewrite (map_size_set key _ (map_set key _ cache)).
    now rewrite map_has_set.
  - apply map_get_set_same.
  - apply get_set_same.
  - intros k Hk. rewrite !map_get_set_other; auto.
Qed.

Lemma map_size_delete_le {V : Type} (k : string) (m : JsMap V) :
  (map_size (map_delete k m) <= map_size m)%nat.
Proof.
  unfold map_size. induction m as [|[k0 v0] m IH]; simpl; [lia|].
  destruct (String.eqb k k0); simpl; lia.
Qed.

(** X3 -- what a lookup does: it returns a handle only for an entry under
    the exact key that is not older than the TTL, and then changes nothing;
    otherwise it returns absent, and the only change it can make is to
    delete the expired entry under that key: a missing key leaves the cache
    as it is, the entries under other keys stay, the cache never grows. *)
Theorem lookup_frame (cache : WindowCache.t) (a b : string) (now : Z) :
  let key := WindowCache.getCacheKey a b in
  let looked := WindowCache.get now a b cache in
  (forall h, fst looked = Some h ->
     exists e, map_get key cache = Some e /\ CachedWindow.windowId e = h /\
               (now - CachedWindow.timestamp e <= WindowCache.CACHE_TTL)%Z /\
               snd looked = cache) /\
  (map_get key cache = None -> looked = (None, cache)) /\
  (forall k, k <> key -> map_get k (snd looked) = map_get k cache) /\
  (map_size (snd looked) <= map_size cache)%nat.
Proof.
  intros key looked. unfold looked, WindowCache.get. fold key.
  destruct (map_get key cache) as [e|] eqn:He.
  - destruct (Z.gtb_spec (now - CachedWindow.timestamp e) WindowCache.CACHE_TTL);
      simpl; repeat split; try discriminate; auto.
    + intros k Hk. now apply map_get_delete_other.
    + apply map_size_delete_le.
    + intros h [= <-]. exists e. repeat split; auto.
  - simpl. repeat split; try discriminate; auto.
Qed.

(** ** The invariant of the cache *)

Lemma keyed_set now a t h cache :
  keyed cache -> keyed (WindowCache.set now a t h cache).
Proof.
  intros Hk k e Hin. unfold WindowCache.set in Hin.
  apply map_set_In in Hin. destruct Hin as [[= -> ->]|Hin]; [reflexivity|].
  now apply Hk.
Qed.

Lemma map_delete_In {V : Type} (k k0 : string) (v : V) (m : JsMap V) :
  In (k, v) (map_delete k0 m) -> In (k, v) m.
Proof.
  induction m as [|[k1 v1] m IH]; simpl; [tauto|].
  destruct (String.eqb k0 k1); simpl; [tauto|].
  intros [H|H]; [now left | right; now apply IH].
Qed.

Lemma keyed_get now a t cache :
  keyed cache -> keyed (snd (WindowCache.get now a t cache)).
Proof.
  intros Hk. unfold WindowCache.get.
  destruct (map_get _ cache) as [e|]; [|assumption].
  destruct (_ >? _)%Z; [|assumption].
  intros k e' Hin. apply map_delete_In in Hin. now apply Hk.
Qed.

Lemma cacheOk_empty : cacheOk WindowCache.empty.
Proof. split; [apply wellFormed_empty | intros k e []]. Qed.

Lemma cacheOk_set now a t h cache :
  cacheOk cache -> cacheOk (WindowCache.set now a t h cache).
Proof. intros [? ?]. split; [now apply wellFormed_set | now apply keyed_set]. Qed.

Lemma cacheOk_get now a t cache :
  cacheOk cache -> cacheOk (snd (WindowCache.get now a t cache)).
Proof. intros [? ?]. split; [now apply wellFormed_get | now apply keyed_get]. Qed.

Section Keeps.
Context {rt : Runtime} (env : Env).

Lemma keeps_ret {A} (P : World -> Prop) (a : A) : keeps P (ret a).
Proof. intros w Hw. exact Hw. Qed.

Lemma keeps_throw {A} (P : World -> Prop) (e : Error) : keeps P (@throw A e).
Proof. intros w Hw. exact Hw. Qed.

Lemma keeps_bind {A B} (P : World -> Prop) (m : M A) (k : A -> M B) :
  keeps P m -> (forall a, keeps P (k a)) -> keeps P (bind m k).
Proof.
  intros Hm Hk w Hw. unfold bind. specialize (Hm w Hw).
  destruct (m w) as [[a|e] w1]; simpl in *; [now apply Hk | assumption].
Qed.

Lemma keeps_try_catch {A} (P : World -> Prop) (m : M A) (h : Error -> M A) :
  keeps P m -> (forall e, keeps P (h e)) -> keeps P (try_catch m h).
Proof.
  intros Hm Hh w Hw. unfold try_catch. specialize (Hm w Hw).
  destruct (m w) as [[a|e] w1]; simpl in *; [assumption | now apply Hh].
Qed.

(** The external calls leave the cache alone. *)

Lemma keeps_await_exec Q command : keeps (onCache Q) (await_exec env command).
Proof.
  intros w Hw. unfold await_exec, perform. simpl.
  now destruct (execAsync env (log w) command).
Qed.

Lemma keeps_exists_sync Q path : keeps (onCache Q) (exists_sync env path).
Proof. intros w Hw. exact Hw. Qed.

Lemma keeps_await_mkdir Q path : keeps (onCache Q) (await_mkdir env path).
Proof.
  intros w Hw. unfold await_mkdir, perform. simpl.
  now destruct (mkdir env (log w) path).
Qed.

Lemma keeps_readFileAsBase64 Q path :
  keeps (onCache Q) (readFileAsBase64 env path).
Proof.
  intros w Hw. unfold readFileAsBase64, perform. simpl.
  now destruct (readFile env (log w) path).
Qed.

Lemma keeps_windowCache_get a t : keeps (onCache cacheOk) (windowCache_get a t).
Proof.
  intros w Hw. unfold windowCache_get, onCache in *.
  pose proof (cacheOk_get (clock w) a t (cache w) Hw) as H.
  now destruct (WindowCache.get (clock w) a t (cache w)).
Qed.

Lemma keeps_windowCache_set a t h :
  keeps (onCache cacheOk) (windowCache_set a t h).
Proof. intros w Hw. now apply cacheOk_set. Qed.

Lemma keeps_windowCache_clear : keeps (onCache cacheOk) windowCache_clear.
Proof. intros w Hw. apply cacheOk_empty. Qed.

Lemma keeps_windowCache_getStats Q : keeps (onCache Q) windowCache_getStats.
Proof. intros w Hw. exact Hw. Qed.
End Keeps.

Create HintDb keeps.
#[export] Hint Resolve keeps_ret keeps_throw keeps_await_exec keeps_exists_sync
  keeps_await_mkdir keeps_readFileAsBase64 keeps_windowCache_get
  keeps_windowCache_set keeps_windowCache_clear keeps_windowCache_getStats
  : keeps.

(** Goes through a monadic program, one construct at a time. *)
Ltac keeps_step :=
  match goal with
  | |- keeps _ (bind _ _) => apply keeps_bind; [|intros]
  | |- keeps _ (try_catch _ _) => apply keeps_try_catch; [|intros]
  | |- keeps _ (if ?b then _ else _) => destruct b
  | |- keeps _ (match ?x with _ => _ end) => destruct x
  | |- keeps _ (let _ := _ in _) => cbv zeta
  | |- keeps _ _ => solve [auto with keeps]
  end.

Section Invariant.
Context {rt : Runtime} (env : Env).

Lemma keeps_resolveNamedWindow a t :
  keeps (onCache cacheOk) (resolveNamedWindow env a t).
Proof. unfold resolveNamedWindow. repeat keeps_step. Qed.

Lemma keeps_getFirstWindowIdForApp a :
  keeps (onCache cacheOk) (getFirstWindowIdForApp env a).
Proof. unfold getFirstWindowIdForApp. repeat keeps_step. Qed.

Lemma keeps_resolveWindowString forceRefresh x :
  keeps (onCache cacheOk) (resolveWindowString env forceRefresh x).
Proof. unfold resolveWindowString. repeat keeps_step. Qed.

Lemma keeps_windowLoop forceRefresh xs acc :
  keeps (onCache cacheOk) (windowLoop env forceRefresh xs acc).
Proof.
  revert acc. induction xs as [|x xs IH]; intros acc; simpl.
  - auto with keeps.
  - apply keeps_bind; [apply keeps_resolveWindowString | intros; apply IH].
Qed.

Lemma keeps_getWindowList forceRefresh :
  keeps (onCache cacheOk) (getWindowList env forceRefresh).
Proof.
  unfold getWindowList.
  repeat first [apply keeps_windowLoop | keeps_step].
Qed.

Lemma keeps_getApplicationWindowsList forceRefresh :
  keeps (onCache cacheOk) (getApplicationWindowsList env forceRefresh).
Proof.
  unfold getApplicationWindowsList.
  apply keeps_bind; [apply keeps_getWindowList | auto with keeps].
Qed.

Lemma keeps_capture command path appInfo :
  keeps (onCache cacheOk) (capture env command path appInfo).
Proof. unfold capture. repeat keeps_step. Qed.

Lemma keeps_take_screenshot args :
  keeps (onCache cacheOk) (take_screenshot env args).
Proof.
  intros w. unfold take_screenshot.
  set (filename := match given (ScreenshotArgs.filename args) with
                   | Some f => f
                   | None => _
                   end).
  clearbody filename. revert w.
  apply keeps_try_catch; [|auto with keeps].
  repeat first [apply keeps_resolveNamedWindow
               | apply keeps_getFirstWindowIdForApp
               | apply keeps_capture
               | keeps_step].
Qed.

Lemma keeps_list_windows forceRefresh :
  keeps (onCache cacheOk) (list_windows env forceRefresh).
Proof.
  unfold list_windows.
  repeat first [apply keeps_getApplicationWindowsList | keeps_step].
Qed.

Lemma keeps_clear_cache : keeps (onCache cacheOk) clear_cache.
Proof. unfold clear_cache. repeat keeps_step. Qed.
End Invariant.

(** ** The request handler *)

Section DispatcherFacts.
Context {rt : Runtime} (env : Env).

Lemma try_catch_returns {A} (m : M A) (h : Error -> M A) (w : World) :
  (forall e w1, exists a w2, h e w1 = (Returned a, w2)) ->
  exists a w', try_catch m h w = (Returned a, w').
Proof.
  intros Hh. unfold try_catch. destruct (m w) as [[a|e] w1]; [eauto | apply Hh].
Qed.

(** X4 -- the invariant of the cache: a tool call from a world whose cache
    has no key twice and files every entry under the key of its own names
    ends, whatever the world answers and whether the call returns or
    throws, in a world whose cache is such again. *)
Theorem callTool_keeps_cache_invariant (request : Request.t) (w : World) :
  cacheOk (cache w) -> cacheOk (cache (snd (callTool env request w))).
Proof.
  revert w. change (keeps (onCache cacheOk) (callTool env request)).
  unfold callTool. cbv zeta.
  repeat first [apply keeps_clear_cache | apply keeps_list_windows
               | apply keeps_take_screenshot | keeps_step].
Qed.

(** X5 -- the outermost boundary: a call of one of the three listed tools
    always returns an answer, whatever fails underneath; a call of any other
    name throws [Unknown tool] and changes nothing. *)
Theorem callTool_returns_for_listed_tools (request : Request.t) (w : World) :
  (In (Request.name request) listTools ->
   exists (answer : ToolResponse) (w' : World),
     callTool env request w = (Returned answer, w')) /\
  (~ In (Request.name request) listTools ->
   callTool env request w
   = (Thrown (mkError ("Unknown tool: " +++ Request.name request)), w)).
Proof.
  unfold callTool, listTools. cbv zeta. split.
  - intros Hin.
    destruct (String.eqb_spec (Request.name request) "clear_cache") as [E|E].
    { apply try_catch_returns. intros e w1. unfold ret. eauto. }
    destruct (String.eqb_spec (Request.name request) "list_windows") as [E1|E1].
    { apply try_catch_returns. intros e w1. unfold ret. eauto. }
    destruct (String.eqb_spec (Request.name request) "take_screenshot") as [E2|E2].
    { unfold take_screenshot. apply try_catch_returns.
      intros e w1. unfold ret. eauto. }
    simpl in Hin. intuition congruence.
  - intros Hout. simpl in Hout.
    destruct (String.eqb_spec (Request.name request) "clear_cache") as [E|E];
      [intuition congruence|].
    destruct (String.eqb_spec (Request.name request) "list_windows") as [E1|E1];
      [intuition congruence|].
    destruct (String.eqb_spec (Request.name request) "take_screenshot") as [E2|E2];
      [intuition congruence|].
    reflexivity.
Qed.
End DispatcherFacts.

(** ** Resolution on a cache miss *)

Section ResolverMore.
Context {rt : Runtime} (env : Env).

Lemma windowCache_get_run (w : World) (a t : string) :
  windowCache_get a t w
  = (Returned (fst (WindowCache.get (clock w) a t (cache w))),
     {| cache := snd (WindowCache.get (clock w) a t (cache w));
        clock := clock w; log := log w |}).
Proof.
  unfold windowCache_get. now destruct (WindowCache.get (clock w) a t (cache w)).
Qed.

(** X6 -- a miss that resolves: when the cache has no usable handle for the
    pair and [GetWindowID] prints the number [n], the [windowName] path
    makes that one call, returns [n] and stores it stamped with the time
    after the call; asked again at once it returns [n] without a call,
    unless [n] is 0. *)
Theorem resolveNamedWindow_miss_stores
    (w : World) (a t stdout : string) (n : Z) :
  orZero (fst (WindowCache.get (clock w) a t (cache w))) = 0%Z ->
  execAsync env (log w) (GetWindowID a t) = Resolved stdout ->
  parseInt (trim stdout) = Some n ->
  exists w' : World,
    resolveNamedWindow env a t w = (Returned n, w') /\
    log w' = (log w ++ [Exec (GetWindowID a t)])%list /\
    map_get (WindowCache.getCacheKey a t) (cache w')
    = Some (CachedWindow.mk n a t (clock w')) /\
    (n <> 0%Z -> resolveNamedWindow env a t w' = (Returned n, w')).
Proof.
  intros Hmiss Hexec Hparse.
  unfold resolveNamedWindow at 1. unfold bind at 1.
  rewrite windowCache_get_run, Hmiss. simpl.
  unfold try_catch, bind, await_exec, perform. simpl.
  rewrite Hexec, Hparse. unfold windowCache_set, ret. simpl.
  eexists. split; [reflexivity|]. simpl. split; [reflexivity|].
  split; [apply map_get_set_same|].
  intros Hn. unfold resolveNamedWindow, bind.
  match goal with
  | |- context [windowCache_get a t ?w1] =>
      rewrite (windowCache_get_live w1 a t
                 (CachedWindow.mk n a t (clock w1)))
  end.
  - simpl. destruct (Z.eqb_spec n 0); [contradiction | reflexivity].
  - apply map_get_set_same.
  - simpl. unfold WindowCache.CACHE_TTL. lia.
Qed.

(** X7 -- a miss that does not resolve: when the cache has no usable handle
    for the pair and [GetWindowID] is rejected or prints no number, the
    [windowName] path throws the error that names the window and the
    application, after that one call, and stores nothing. *)
Theorem resolveNamedWindow_not_found (w : World) (a t : string) :
  orZero (fst (WindowCache.get (clock w) a t (cache w))) = 0%Z ->
  (forall stdout, execAsync env (log w) (GetWindowID a t) = Resolved stdout ->
                  parseInt (trim stdout) = None) ->
  exists w' : World,
    resolveNamedWindow env a t w = (Thrown (windowNotFound a t), w') /\
    log w' = (log w ++ [Exec (GetWindowID a t)])%list /\
    cache w' = snd (WindowCache.get (clock w) a t (cache w)).
Proof.
  intros Hmiss Hfail.
  unfold resolveNamedWindow. unfold bind at 1.
  rewrite windowCache_get_run, Hmiss. simpl.
  unfold try_catch, bind, await_exec, perform, throw. simpl.
  destruct (execAsync env (log w) (GetWindowID a t)) as [e|stdout].
  - eexists. repeat split.
  - rewrite (Hfail stdout eq_refl). eexists. repeat split.
Qed.

(** ** The first window of an application *)

Lemma find_after_set (p : CachedWindow.t -> bool) (k : string)
    (v : CachedWindow.t) (m : WindowCache.t) :
  find p (map_values m) = None -> p v = true ->
  find p (map_values (map_set k v m)) = Some v.
Proof.
  intros Hnone Hv. induction m as [|[k0 v0] m IH]; simpl in *.
  - now rewrite Hv.
  - destruct (p v0) eqn:E0; [discriminate|].
    destruct (String.eqb k k0); simpl; [now rewrite Hv | rewrite E0; now apply IH].
Qed.

(** X8 -- [getFirstWindowIdForApp] never throws, and calls at most the
    first-window script once and then [GetWindowID] once, for the requested
    application. *)
Theorem getFirstWindowIdForApp_returns (w : World) (appName : string) :
  exists (n : Z) (w' : World) (calls : list Call),
    getFirstWindowIdForApp env appName w = (Returned n, w') /\
    log w' = (log w ++ calls)%list /\
    (calls = [] \/
     calls = [Exec (Osascript (GetFirstWindowScript appName))] \/
     exists title,
       calls = [Exec (Osascript (GetFirstWindowScript appName));
                Exec (GetWindowID appName title)]).
Proof.
  unfold getFirstWindowIdForApp, try_catch, bind at 1, windowCache_getStats.
  simpl.
  destruct (find (sameApp appName) (map_values (cache w))) as [entry|].
  - exists (CachedWindow.windowId entry), w, []. rewrite app_nil_r. auto.
  - unfold bind at 1, await_exec, perform. simpl.
    destruct (execAsync env (log w) (Osascript (GetFirstWindowScript appName)))
      as [e|stdout].
    + do 3 eexists. split; [reflexivity|]. simpl. auto.
    + destruct (String.eqb (trim stdout) "NOT_FOUND" || negb (truthy (trim stdout))).
      * do 3 eexists. split; [reflexivity|]. simpl. auto.
      * unfold bind, try_catch, await_exec, perform, ret. simpl.
        destruct (execAsync env _ (GetWindowID appName (trim stdout)))
          as [e|out].
        { do 3 eexists. split; [reflexivity|]. simpl.
          rewrite <- app_assoc. split; [reflexivity|]. right. right. eexists. reflexivity. }
        destruct (parseInt (trim out)) as [n|]; simpl.
        { do 3 eexists. split; [reflexivity|]. simpl.
          rewrite <- app_assoc. split; [reflexivity|]. right. right. eexists. reflexivity. }
        { do 3 eexists. split; [reflexivity|]. simpl.
          rewrite <- app_assoc. split; [reflexivity|]. right. right. eexists. reflexivity. }
Qed.

(** X9 -- no such application: when no cache entry matches and the
    first-window script fails, prints [NOT_FOUND] or prints nothing,
    [getFirstWindowIdForApp] returns 0 after that one call, without a call
    of [GetWindowID] and without touching the cache. *)
Theorem getFirstWindowIdForApp_not_found (w : World) (appName : string) :
  find (sameApp appName) (map_values (cache w)) = None ->
  (forall stdout,
      execAsync env (log w) (Osascript (GetFirstWindowScript appName))
      = Resolved stdout ->
      trim stdout = "NOT_FOUND" \/ trim stdout = EmptyString) ->
  getFirstWindowIdForApp env appName w
  = (Returned 0%Z,
     afterCall env (Exec (Osascript (GetFirstWindowScript appName))) w).
Proof.
  intros Hfind Hout.
  unfold getFirstWindowIdForApp, try_catch, bind at 1, windowCache_getStats.
  simpl. rewrite Hfind.
  unfold bind at 1, await_exec, afterCall, perform. simpl.
  destruct (execAsync env (log w) (Osascript (GetFirstWindowScript appName)))
    as [e|stdout]; [reflexivity|].
  destruct (Hout stdout eq_refl) as [-> | ->]; reflexivity.
Qed.

(** X10 -- the slow path fills the cache: when no cache entry matches, the
    first-window script prints a title and [GetWindowID] prints the number
    [n] for it, [getFirstWindowIdForApp] returns [n] and stores it under the
    requested name and that title; the next call for the same name returns
    [n] from the cache without any call. *)
Theorem getFirstWindowIdForApp_fills_cache
    (w : World) (appName stdout out : string) (n : Z) :
  find (sameApp appName) (map_values (cache w)) = None ->
  execAsync env (log w) (Osascript (GetFirstWindowScript appName))
  = Resolved stdout ->
  trim stdout <> "NOT_FOUND" -> trim stdout <> EmptyString ->
  execAsync env (log w ++ [Exec (Osascript (GetFirstWindowScript appName))])%list
    (GetWindowID appName (trim stdout)) = Resolved out ->
  parseInt (trim out) = Some n ->
  exists w' : World,
    getFirstWindowIdForApp env appName w = (Returned n, w') /\
    log w' = (log w ++ [Exec (Osascript (GetFirstWindowScript appName));
                        Exec (GetWindowID appName (trim stdout))])%list /\
    entryFor (cache w') appName (trim stdout) n /\
    getFirstWindowIdForApp env appName w' = (Returned n, w').
Proof.
  intros Hfind Hscript Hnf Hne Hexec Hparse.
  unfold getFirstWindowIdForApp at 1.
  unfold try_catch, bind at 1, windowCache_getStats. simpl. rewrite Hfind.
  unfold bind at 1, await_exec, perform. simpl. rewrite Hscript.
  apply String.eqb_neq in Hnf. rewrite Hnf.
  destruct (trim stdout) as [|c title] eqn:Htitle; [congruence|]. simpl.
  unfold bind, try_catch, await_exec, perform, ret. simpl.
  rewrite Hexec, Hparse. unfold windowCache_set. simpl.
  eexists. split; [reflexivity|]. simpl.
  split; [now rewrite <- app_assoc|].
  split.
  - eexists. split; [apply map_get_set_same | auto].
  - match goal with
    | |- getFirstWindowIdForApp env appName ?w1 = _ =>
        apply (getFirstWindowIdForApp_scan env w1 appName
                 (CachedWindow.mk n appName (String c title) (clock w1)))
    end.
    simpl. apply find_after_set; [assumption|].
    unfold sameApp. simpl. apply String.eqb_refl.
Qed.
End ResolverMore.

(** ** Listing from a hot cache, and an empty listing *)

Section ListingMore.
Context {rt : Runtime} (env : Env).

Lemma round_hot (x a t : string) (w : World) (e : CachedWindow.t) :
  pairOf x = Some (a, t) ->
  map_get (WindowCache.getCacheKey a t) (cache w) = Some e ->
  (clock w - CachedWindow.timestamp e <= WindowCache.CACHE_TTL)%Z ->
  CachedWindow.windowId e <> 0%Z ->
  resolveWindowString env false x w
  = (Returned (listed a t (Some (CachedWindow.windowId e))), w).
Proof.
  intros Hp He Hage Hid. apply pairOf_Some in Hp.
  unfold resolveWindowString. rewrite Hp. unfold bind at 1 2. simpl.
  rewrite (windowCache_get_live w a t e He Hage). simpl. unfold ret at 1.
  destruct (Z.eqb_spec (CachedWindow.windowId e) 0); [contradiction|].
  unfold bind, ret, listed. simpl.
  now destruct (CachedWindow.windowId e >? 0)%Z.
Qed.

Lemma windowLoop_hot (pairs : list (string * string))
    (acc : list WindowInfo.t) (w : World) :
  (forall p, In p pairs -> pairOf (keyOf p) = Some p) ->
  (forall p, In p pairs ->
     exists e, map_get (keyOf p) (cache w) = Some e /\
               CachedWindow.windowId e <> 0%Z /\
               (clock w - CachedWindow.timestamp e <= WindowCache.CACHE_TTL)%Z) ->
  windowLoop env false (List.map keyOf pairs) acc w
  = (Returned (acc ++ flat_map (fromCache (cache w)) pairs)%list, w).
Proof.
  revert acc. induction pairs as [|[a t] rest IH]; intros acc Hwf Hhot.
  - simpl. now rewrite app_nil_r.
  - destruct (Hhot (a, t) (or_introl eq_refl)) as (e & He & Hid & Hage).
    simpl. unfold bind.
    rewrite (round_hot _ a t w e (Hwf _ (or_introl eq_refl)) He Hage Hid).
    rewrite IH.
    + unfold fromCache at 2. rewrite He. simpl.
      destruct (CachedWindow.windowId e >? 0)%Z; simpl;
        now rewrite <- ?app_assoc.
    + intros p Hin. apply Hwf. now right.
    + intros p Hin. apply Hhot. now right.
Qed.

(** X11 -- a hot cache saves the lookups: when, once the enumeration has
    returned, every enumerated pair has an unexpired entry whose handle is
    not 0, [getWindowList(false)] calls nothing but the enumeration and
    lists the pairs with the cached handles that are positive. *)
Theorem hot_cache_needs_no_lookup (w : World) :
  let w1 := afterCall env (Exec (Osascript GetWindowsScript)) w in
  (forall p, In p (enumeratedPairs env w) ->
     exists e, map_get (keyOf p) (cache w) = Some e /\
               CachedWindow.windowId e <> 0%Z /\
               (clock w1 - CachedWindow.timestamp e <= WindowCache.CACHE_TTL)%Z) ->
  getWindowList env false w
  = (Returned (flat_map (fromCache (cache w)) (enumeratedPairs env w)), w1).
Proof.
  intros w1 Hhot.
  rewrite getWindowList_run, windowLoop_pairs.
  fold (enumeratedPairs env w). fold w1.
  apply (windowLoop_hot (enumeratedPairs env w) [] w1 (pairsOf_wf _) Hhot).
Qed.

Lemma groupWindows_nonempty (x : WindowInfo.t) (rest : list WindowInfo.t) :
  groupWindows (x :: rest) [] <> [].
Proof.
  intros H.
  assert (Hk : In (WindowInfo.appName x)
                 (map_keys (groupWindows (x :: rest) [])))
    by (apply groupWindows_keys; right; now left).
  rewrite H in Hk. exact Hk.
Qed.

Lemma sort_nil_inv {A} (cmp : A -> A -> Z) (l : list A) :
  sort cmp l = [] -> l = [].
Proof.
  intros H. pose proof (sort_perm cmp l) as Hp. rewrite H in Hp.
  now apply Permutation_nil in Hp.
Qed.

(** X12 -- the answer of [list_windows]: it is the hint about accessibility
    permissions exactly when [getWindowList] lists no window, be it that the
    enumeration failed, printed nothing, or that no pair resolved; otherwise
    it is one text that starts with the heading of the listing. *)
Theorem list_windows_hint_iff_nothing_listed (forceRefresh : bool) (w : World) :
  exists (windows : list WindowInfo.t) (w' : World),
    getWindowList env forceRefresh w = (Returned windows, w') /\
    (windows = [] ->
     list_windows env forceRefresh w = (Returned [Text noWindowsHint], w')) /\
    (windows <> [] ->
     exists rest : string,
       list_windows env forceRefresh w
       = (Returned [Text ("Available applications and windows:" +++ rest)], w')).
Proof.
  destruct (getWindowList_Listing env forceRefresh w)
    as (windows & w' & Hrun & _).
  exists windows, w'. split; [exact Hrun|].
  assert (Hgroups : getApplicationWindowsList env forceRefresh w
                    = (Returned (sort compareApps
                                   (map_values (groupWindows windows []))), w'))
    by (unfold getApplicationWindowsList, bind; now rewrite Hrun).
  split.
  - intros ->. unfold list_windows, try_catch, bind. now rewrite Hgroups.
  - intros Hne. unfold list_windows, try_catch. unfold bind at 1.
    rewrite Hgroups.
    destruct (sort compareApps (map_values (groupWindows windows [])))
      as [|g groups] eqn:Hsort.
    + apply sort_nil_inv in Hsort. unfold map_values in Hsort.
      apply map_eq_nil in Hsort.
      destruct windows as [|x rest]; [contradiction|].
      now apply groupWindows_nonempty in Hsort.
    + unfold bind, windowCache_getStats, ret. simpl. eexists. reflexivity.
Qed.
End ListingMore.

(** ** The text of the enumeration *)









(** ** The [take_screenshot] handler *)

(** Finds the equation that holds in a disjunction of equations. *)
Ltac pick_disjunct :=
  repeat first [reflexivity | (left; reflexivity) | right].

Section Screenshot.
Context {rt : Runtime} (env : Env).

(** The handler is its three stages in a row, any error of which becomes
    the answer. *)
Lemma take_screenshot_run (args : ScreenshotArgs.t) (w : World) :
  take_screenshot env args w =
  match ensureDirectory env w with
  | (Thrown e, w1) => (Returned (screenshotError e), w1)
  | (Returned _, w1) =>
      match resolveTarget env args w1 with
      | (Thrown e, w2) => (Returned (screenshotError e), w2)
      | (Returned target, w2) =>
          match capture env (Screencapture target (screenshotPath env args w))
                  (screenshotPath env args w) (appInfoOf args) w2 with
          | (Thrown e, w3) => (Returned (screenshotError e), w3)
          | (Returned answer, w3) => (Returned answer, w3)
          end
      end
  end.
Proof.
  unfold take_screenshot, ensureDirectory, resolveTarget, try_catch,
    screenshotPath, fileNameOf, screenshotsDir, appInfoOf, includeShadow,
    noWindowsForApp, bind.
  destruct (exists_sync env _ w) as [[dirExists|e] w1]; [|reflexivity].
  destruct dirExists; simpl.
  - unfold ret at 1.
    destruct (given (ScreenshotArgs.appName args)) as [appName|];
      [|reflexivity].
    destruct (given (ScreenshotArgs.windowName args)) as [windowName|].
    + destruct (resolveNamedWindow env appName windowName w1)
        as [[windowId|e] w2]; reflexivity.
    + destruct (getFirstWindowIdForApp env appName w1) as [[windowId|e] w2];
        [|reflexivity].
      destruct (windowId =? 0)%Z; reflexivity.
  - destruct (await_mkdir env _ w1) as [[[]|e] w2]; [|reflexivity].
    destruct (given (ScreenshotArgs.appName args)) as [appName|];
      [|reflexivity].
    destruct (given (ScreenshotArgs.windowName args)) as [windowName|].
    + destruct (resolveNamedWindow env appName windowName w2)
        as [[windowId|e] w3]; reflexivity.
    + destruct (getFirstWindowIdForApp env appName w2) as [[windowId|e] w3];
        [|reflexivity].
      destruct (windowId =? 0)%Z; reflexivity.
Qed.

Lemma ensureDirectory_run (w : World) :
  ensureDirectory env w =
  let dir := screenshotsDir env in
  let w1 := afterCall env (ExistsSync dir) w in
  if existsSync env (log w) dir then (Returned tt, w1)
  else
    match mkdir env (log w1) dir with
    | None => (Returned tt, afterCall env (Mkdir dir) w1)
    | Some e => (Thrown e, afterCall env (Mkdir dir) w1)
    end.
Proof.
  unfold ensureDirectory, bind, exists_sync, await_mkdir, afterCall, perform.
  simpl. destruct (existsSync env (log w) (screenshotsDir env)); simpl;
    [reflexivity|].
  now destruct (mkdir env _ (screenshotsDir env)).
Qed.

(** The [windowName] path on a miss, in full. *)
Lemma resolveNamedWindow_miss_run (w : World) (a t : string) :
  orZero (fst (WindowCache.get (clock w) a t (cache w))) = 0%Z ->
  resolveNamedWindow env a t w =
  let w1 := afterCall env (Exec (GetWindowID a t))
              {| cache := snd (WindowCache.get (clock w) a t (cache w));
                 clock := clock w; log := log w |} in
  match execAsync env (log w) (GetWindowID a t) with
  | Rejected _ => (Thrown (windowNotFound a t), w1)
  | Resolved stdout =>
      match parseInt (trim stdout) with
      | None => (Thrown (windowNotFound a t), w1)
      | Some n =>
          (Returned n,
           {| cache := WindowCache.set (clock w1) a t n (cache w1);
              clock := clock w1; log := log w1 |})
      end
  end.
Proof.
  intros Hmiss. unfold resolveNamedWindow. unfold bind at 1.
  rewrite windowCache_get_run, Hmiss. simpl.
  unfold try_catch, bind, await_exec, afterCall, perform, throw. simpl.
  destruct (execAsync env (log w) (GetWindowID a t)) as [e|stdout];
    [reflexivity|].
  now destruct (parseInt (trim stdout)).
Qed.

Lemma ensureDirectory_calls (w w1 : World) (r : Outcome unit) :
  ensureDirectory env w = (r, w1) ->
  cache w1 = cache w /\
  (log w1 = (log w ++ [ExistsSync (screenshotsDir env)])%list \/
   log w1 = (log w ++ [ExistsSync (screenshotsDir env);
                       Mkdir (screenshotsDir env)])%list).
Proof.
  rewrite ensureDirectory_run. cbv zeta. unfold afterCall, perform. simpl.
  destruct (existsSync env (log w) (screenshotsDir env)).
  - intros [= _ <-]. simpl. auto.
  - destruct (mkdir env _ (screenshotsDir env)); intros [= _ <-]; simpl;
      rewrite <- app_assoc; auto.
Qed.

(** X14 -- a named window that cannot be resolved: with the directory in
    place, no usable handle in the cache and a [GetWindowID] that is rejected
    or prints no number, [take_screenshot] answers with the error text that
    names the window and the application; it has checked the directory
    (and made it), called [GetWindowID] once, and never run
    [screencapture]. *)
Theorem take_screenshot_window_not_found
    (args : ScreenshotArgs.t) (w w1 : World) (appName windowName : string) :
  given (ScreenshotArgs.appName args) = Some appName ->
  given (ScreenshotArgs.windowName args) = Some windowName ->
  ensureDirectory env w = (Returned tt, w1) ->
  orZero (fst (WindowCache.get (clock w1) appName windowName (cache w1))) = 0%Z ->
  (forall stdout,
      execAsync env (log w1) (GetWindowID appName windowName) = Resolved stdout ->
      parseInt (trim stdout) = None) ->
  exists (w' : World) (calls : list Call),
    take_screenshot env args w
    = (Returned (screenshotError (windowNotFound appName windowName)), w') /\
    log w' = (log w ++ calls)%list /\
    (calls = [ExistsSync (screenshotsDir env);
              Exec (GetWindowID appName windowName)] \/
     calls = [ExistsSync (screenshotsDir env); Mkdir (screenshotsDir env);
              Exec (GetWindowID appName windowName)]).
Proof.
  intros Happ Hwin Hdir Hmiss Hfail.
  destruct (ensureDirectory_calls w w1 _ Hdir) as [_ Hlog].
  rewrite take_screenshot_run, Hdir.
  unfold resolveTarget. rewrite Happ, Hwin. unfold bind.
  rewrite (resolveNamedWindow_miss_run w1 appName windowName Hmiss).
  cbv zeta. unfold afterCall, perform. simpl.
  assert (Hthrown :
    match execAsync env (log w1) (GetWindowID appName windowName) with
    | Rejected _ => True
    | Resolved stdout => parseInt (trim stdout) = None
    end).
  { destruct (execAsync env (log w1) (GetWindowID appName windowName));
      [exact I | now apply Hfail]. }
  destruct Hlog as [Hlog|Hlog];
    destruct (execAsync env (log w1) (GetWindowID appName windowName))
      as [e|stdout]; rewrite ?Hthrown;
    (eexists; eexists; split; [reflexivity|]; simpl;
     rewrite Hlog, <- app_assoc; split; [reflexivity | auto]).
Qed.

(** X15 -- an application without a window: when the first-window lookup
    returns 0, be it that the application is unknown or that the cache
    holds the handle 0 for it, [take_screenshot] answers with the error text
    that names the application and runs no [screencapture]. *)
Theorem take_screenshot_no_windows
    (args : ScreenshotArgs.t) (w w1 w2 : World) (appName : string) :
  given (ScreenshotArgs.appName args) = Some appName ->
  given (ScreenshotArgs.windowName args) = None ->
  ensureDirectory env w = (Returned tt, w1) ->
  getFirstWindowIdForApp env appName w1 = (Returned 0%Z, w2) ->
  take_screenshot env args w
  = (Returned (screenshotError (noWindowsForApp appName)), w2).
Proof.
  intros Happ Hwin Hdir Hfirst.
  rewrite take_screenshot_run, Hdir.
  unfold resolveTarget. rewrite Happ, Hwin. unfold bind.
  now rewrite Hfirst.
Qed.

(** X16 -- the directory: [take_screenshot] first checks the screenshots
    directory of the working directory; when it is missing and [mkdir]
    fails, the answer is the error of [mkdir], and nothing else is called
    nor the cache touched. *)
Theorem take_screenshot_mkdir_fails
    (args : ScreenshotArgs.t) (w : World) (e : Error) :
  existsSync env (log w) (screenshotsDir env) = false ->
  mkdir env (log w ++ [ExistsSync (screenshotsDir env)])%list (screenshotsDir env)
  = Some e ->
  exists w' : World,
    take_screenshot env args w = (Returned (screenshotError e), w') /\
    log w' = (log w ++ [ExistsSync (screenshotsDir env);
                        Mkdir (screenshotsDir env)])%list /\
    cache w' = cache w.
Proof.
  intros Hmissing Hmkdir.
  rewrite take_screenshot_run, ensureDirectory_run. cbv zeta.
  rewrite Hmissing. unfold afterCall at 2. unfold perform. simpl.
  rewrite Hmkdir. eexists. split; [reflexivity|].
  unfold afterCall, perform. simpl. now rewrite <- app_assoc.
Qed.

Lemma capture_calls (command : Command) (path appInfo : string)
    (w w' : World) (r : Outcome ToolResponse) :
  capture env command path appInfo w = (r, w') ->
  cache w' = cache w /\
  exists calls,
    log w' = (log w ++ Exec command :: calls)%list /\
    (calls = [] \/ calls = [ExistsSync path] \/
     calls = [ExistsSync path; ReadFile path]).
Proof.
  rewrite capture_run. cbv zeta. unfold perform. simpl.
  destruct (execAsync env (log w) command).
  { intros [= _ <-]. simpl. split; [reflexivity|]. exists []. auto. }
  destruct (existsSync env _ path).
  - destruct (readFile env _ path); intros [= _ <-]; simpl;
      (split; [reflexivity|]); exists [ExistsSync path; ReadFile path];
      rewrite <- !app_assoc; auto.
  - intros [= _ <-]. simpl. split; [reflexivity|]. exists [ExistsSync path].
    rewrite <- !app_assoc. auto.
Qed.

(** X17 -- the full screen: without an application name, missing or empty,
    [take_screenshot] ignores [windowName], leaves the cache alone, resolves
    nothing, and calls only the directory check, [mkdir], [screencapture]
    without a window for the path of the file, the check of that path and
    the reading of the file. *)
Theorem take_screenshot_full_screen (args : ScreenshotArgs.t) (w : World) :
  given (ScreenshotArgs.appName args) = None ->
  exists (answer : ToolResponse) (w' : World) (calls : list Call),
    take_screenshot env args w = (Returned answer, w') /\
    cache w' = cache w /\
    log w' = (log w ++ calls)%list /\
    Forall (fullScreenCall (screenshotPath env args w) (screenshotsDir env)) calls.
Proof.
  intros Happ. rewrite take_screenshot_run.
  destruct (ensureDirectory env w) as [[[]|e] w1] eqn:Hdir;
    destruct (ensureDirectory_calls w w1 _ Hdir) as [Hc1 Hl1].
  - unfold resolveTarget. rewrite Happ. unfold ret at 1.
    destruct (capture env _ _ _ w1) as [r w3] eqn:Hcap.
    destruct (capture_calls _ _ _ _ _ _ Hcap) as [Hc3 (calls & Hl3 & Hcalls)].
    assert (Hall : exists calls',
               log w3 = (log w ++ calls')%list /\
               Forall (fullScreenCall (screenshotPath env args w)
                         (screenshotsDir env)) calls').
    { destruct Hl1 as [Hl1|Hl1]; destruct Hcalls as [-> | [-> | ->]];
        rewrite Hl3, Hl1, <- app_assoc;
        eexists; (split; [reflexivity|]); simpl;
        repeat (apply Forall_cons; [unfold fullScreenCall; pick_disjunct|]);
        apply Forall_nil. }
    destruct Hall as (calls' & Hlog & Hfor).
    destruct r as [answer|e]; eexists; exists w3, calls';
      (split; [reflexivity|]); (split; [congruence|]); auto.
  - eexists. exists w1.
    destruct Hl1 as [Hl1|Hl1]; eexists;
      (split; [reflexivity|]); (split; [assumption|]);
      (split; [exact Hl1|]);
      repeat (apply Forall_cons; [unfold fullScreenCall; pick_disjunct|]);
      apply Forall_nil.
Qed.

(** X18 -- what an answer with an image says: the answer of
    [take_screenshot] carries an image only at the end of a run whose last
    three calls are the capture to the path of the file, the check that
    found the file, and the reading that returned the data of the image; the
    text names that path, which is the file name with [.png] in the
    screenshots directory, and the capture has a window exactly when an
    application was named. *)
Theorem take_screenshot_image_answer
    (args : ScreenshotArgs.t) (w w' : World) (text data mime : string) :
  take_screenshot env args w = (Returned [Text text; Image data mime], w') ->
  let path := screenshotPath env args w in
  exists (l : list Call) (target : option (bool * Z)),
    log w' = (l ++ [Exec (Screencapture target path); ExistsSync path;
                    ReadFile path])%list /\
    existsSync env (l ++ [Exec (Screencapture target path)])%list path = true /\
    readFile env (l ++ [Exec (Screencapture target path); ExistsSync path])%list
      path = Resolved data /\
    text = "Screenshot" +++ appInfoOf args +++ " saved to: " +++ path /\
    mime = "image/png" /\
    (target = None <-> given (ScreenshotArgs.appName args) = None) /\
    (forall shadow id, target = Some (shadow, id) -> shadow = includeShadow args).
Proof.
  intros Hrun path. rewrite take_screenshot_run in Hrun. fold path in Hrun.
  destruct (ensureDirectory env w) as [[[]|e] w1]; [|discriminate].
  destruct (resolveTarget env args w1) as [[target|e] w2] eqn:Htarget;
    [|discriminate].
  rewrite capture_run in Hrun. cbv zeta in Hrun. unfold perform in Hrun.
  simpl in Hrun.
  destruct (execAsync env (log w2) _); [discriminate|].
  destruct (existsSync env _ path) eqn:Hexists; [|discriminate].
  destruct (readFile env _ path) as [e|data'] eqn:Hread; [discriminate|].
  injection Hrun as <- <- <- <-.
  exists (log w2), target. simpl. rewrite <- !app_assoc. simpl.
  rewrite <- app_assoc in Hread. simpl in Hread.
  repeat split; auto.
  - intros ->. unfold resolveTarget in Htarget.
    destruct (given (ScreenshotArgs.appName args)) as [a|]; [|reflexivity].
    unfold bind in Htarget.
    match type of Htarget with context [match ?m w1 with _ => _ end] =>
      destruct (m w1) as [[id|e] w3] end; discriminate.
  - intros Hnone. unfold resolveTarget in Htarget. rewrite Hnone in Htarget.
    now injection Htarget as <- _.
  - intros shadow id ->. unfold resolveTarget in Htarget.
    destruct (given (ScreenshotArgs.appName args)) as [a|]; [|discriminate].
    unfold bind in Htarget.
    match type of Htarget with context [match ?m w1 with _ => _ end] =>
      destruct (m w1) as [[id'|e] w3] end; [|discriminate].
    now injection Htarget as <- _ _.
Qed.
End Screenshot.

(** ** Default file names *)


Lemma append_length (a b : string) :
  String.length (a +++ b) = (String.length a + String.length b)%nat.
Proof. induction a as [|c a IH]; simpl; [reflexivity | now rewrite IH]. Qed.












(** ** The version without the cache *)



Section UncachedFacts.
Context {rt : Runtime} (env : Env).

Lemma uncached_round (x : string) (w w' : World) :
  clock w = clock w' -> log w = log w' ->
  exists pushed u u',
    Uncached.resolveWindowString env x w = (Returned pushed, u) /\
    resolveWindowString env true x w'
    = (Returned (match pushed with
                 | Some window =>
                     if positiveHandle window then Some window else None
                 | None => None
                 end), u') /\
    clock u = clock u' /\ log u = log u' /\ cache u = cache w.
Proof.
  intros Hc Hl.
  destruct (pairOf x) as [[a t]|] eqn:Hp.
  - rewrite (round_forced env x a t w' Hp).
    apply pairOf_Some in Hp. unfold Uncached.resolveWindowString.
    rewrite Hp. unfold try_catch, bind, await_exec, perform, afterCall. simpl.
    rewrite <- Hl, <- Hc.
    destruct (execAsync env (log w) (GetWindowID a t)) as [e|stdout].
    + do 3 eexists. repeat split; reflexivity.
    + destruct (parseInt (trim stdout)) as [n|].
      * do 3 eexists. unfold ret, listed, positiveHandle. simpl.
        repeat split; reflexivity.
      * do 3 eexists. repeat split; reflexivity.
  - rewrite round_malformed by assumption.
    unfold Uncached.resolveWindowString. unfold pairOf in Hp.
    destruct (split "|||" x) as [|a [|t [|? ?]]];
      try discriminate; exists None, w, w'; auto.
Qed.

Lemma uncached_loop (xs : list string) :
  forall (acc : list WindowInfo.t) (w w' : World),
  clock w = clock w' -> log w = log w' ->
  exists windows u u',
    Uncached.windowLoop env xs acc w = (Returned windows, u) /\
    windowLoop env true xs (filter positiveHandle acc) w'
    = (Returned (filter positiveHandle windows), u') /\
    clock u = clock u' /\ log u = log u' /\ cache u = cache w.
Proof.
  induction xs as [|x xs IH]; intros acc w w' Hc Hl.
  - exists acc, w, w'. auto.
  - destruct (uncached_round x w w' Hc Hl)
      as (pushed & u & u' & Hu & Hu' & Hc1 & Hl1 & Hk1).
    simpl. unfold bind. rewrite Hu, Hu'.
    destruct pushed as [window|].
    + destruct (IH (acc ++ [window])%list u u' Hc1 Hl1)
        as (windows & v & v' & Hv & Hv' & Hc2 & Hl2 & Hk2).
      rewrite filter_app in Hv'. simpl in Hv'.
      exists windows, v, v'. rewrite Hv. split; [reflexivity|].
      rewrite Hk2, Hk1.
      destruct (positiveHandle window).
      * now rewrite Hv'.
      * rewrite app_nil_r in Hv'. now rewrite Hv'.
    + destruct (IH acc u u' Hc1 Hl1)
        as (windows & v & v' & Hv & Hv' & Hc2 & Hl2 & Hk2).
      exists windows, v, v'. now rewrite Hv, Hv', Hk2, Hk1.
Qed.


(** X21 -- Listing with a forced refresh makes the same external calls as
    the listing of the version without the cache, in the same time, and
    lists the same windows in the same order but for those whose handle is
    not positive, which only the version without the cache lists. *)
Theorem forced_listing_is_positive_part_of_uncached (w : World) :
  exists windows u u',
    Uncached.getWindowList env w = (Returned windows, u) /\
    getWindowList env true w
    = (Returned (filter positiveHandle windows), u') /\
    clock u = clock u' /\ log u = log u' /\ cache u = cache w.
Proof.
  unfold Uncached.getWindowList, getWindowList, try_catch, bind,
    await_exec, perform. simpl.
  destruct (execAsync env (log w) (Osascript GetWindowsScript)) as [e|stdout].
  - do 3 eexists. unfold ret. repeat split; reflexivity.
  - destruct (truthy (trim stdout)); simpl.
    + match goal with
      | |- context [Uncached.windowLoop env ?xs [] ?w0] =>
          destruct (uncached_loop xs [] w0 w0 eq_refl eq_refl)
            as (windows & u & u' & Hu & Hu' & Hc & Hl & Hk)
      end.
      simpl in Hu'. rewrite Hu, Hu'.
      exists windows, u, u'. rewrite Hk. repeat split; auto.
    + do 3 eexists. unfold ret. repeat split; reflexivity.
Qed.


(** X23 -- The cache is transparent on a miss: when it has no usable handle
    for the pair, the [windowName] path answers as the version without the
    cache does, returning the same handle or throwing the same error, after
    the same one call of [GetWindowID] and in the same time; only the cache
    differs afterwards. *)
Theorem cached_resolution_agrees_on_miss (w : World) (a t : string) :
  orZero (fst (WindowCache.get (clock w) a t (cache w))) = 0%Z ->
  let cached := resolveNamedWindow env a t w in
  let uncached := Uncached.resolveNamedWindow env a t w in
  fst cached = fst uncached /\
  log (snd cached) = (log w ++ [Exec (GetWindowID a t)])%list /\
  log (snd uncached) = (log w ++ [Exec (GetWindowID a t)])%list /\
  clock (snd cached) = clock (snd uncached) /\
  cache (snd uncached) = cache w.
Proof.
  intros Hmiss cached uncached. subst cached uncached.
  rewrite (resolveNamedWindow_miss_run env w a t Hmiss). cbv zeta.
  unfold Uncached.resolveNamedWindow, try_catch, bind, await_exec, afterCall,
    perform, throw, ret. simpl.
  destruct (execAsync env (log w) (GetWindowID a t)) as [e|stdout].
  - repeat split.
  - destruct (parseInt (trim stdout)) as [n|]; repeat split.
Qed.
End UncachedFacts.

(** ** Listing after a clear *)

Section ColdListing.
Context {rt : Runtime} (env : Env).

Lemma round_cold (x a t : string) (w : World) :
  pairOf x = Some (a, t) ->
  map_get x (cache w) = None ->
  resolveWindowString env false x w = resolveWindowString env true x w.
Proof.
  intros Hp Hnone. pose proof (pairOf_key x a t Hp) as Hkey.
  apply pairOf_Some in Hp. unfold resolveWindowString. rewrite Hp.
  simpl. unfold bind at 1 2. unfold windowCache_get, WindowCache.get.
  rewrite Hkey, Hnone. rewrite world_eta. reflexivity.
Qed.

Lemma round_forced_cache (x a t k : string) (w : World) :
  pairOf x = Some (a, t) -> k <> x ->
  map_get k (cache (snd (resolveWindowString env true x w)))
  = map_get k (cache w).
Proof.
  intros Hp Hk. rewrite (round_forced env x a t w Hp). cbv zeta.
  pose proof (pairOf_key x a t Hp) as Hkey.
  destruct (execAsync env (log w) (GetWindowID a t)) as [e|stdout];
    [reflexivity|].
  destruct (parseInt (trim stdout)) as [n|]; [|reflexivity].
  simpl. unfold WindowCache.set. rewrite Hkey.
  apply map_get_set_other. congruence.
Qed.

Lemma windowLoop_cold (pairs : list (string * string)) :
  (forall p, In p pairs -> pairOf (keyOf p) = Some p) ->
  NoDup pairs ->
  forall (acc : list WindowInfo.t) (w : World),
    (forall p, In p pairs -> map_get (keyOf p) (cache w) = None) ->
    windowLoop env false (List.map keyOf pairs) acc w
    = windowLoop env true (List.map keyOf pairs) acc w.
Proof.
  induction pairs as [|[a t] rest IH]; intros Hwf Hnd acc w Hcold;
    [reflexivity|].
  assert (Hp : pairOf (keyOf (a, t)) = Some (a, t)) by (apply Hwf; now left).
  inversion Hnd as [|? ? Hnotin Hnd']; subst.
  simpl. unfold bind.
  rewrite (round_cold _ a t w Hp) by (apply Hcold; now left).
  destruct (resolveWindowString env true (keyOf (a, t)) w) as [[pushed|e] w1]
    eqn:Hround; [|reflexivity].
  apply IH; [intros p Hin; apply Hwf; now right | assumption |].
  intros p Hin.
  replace w1 with (snd (resolveWindowString env true (keyOf (a, t)) w))
    by now rewrite Hround.
  rewrite (round_forced_cache _ a t (keyOf p) w Hp).
  - apply Hcold. now right.
  - intros Heq.
    assert (Hp' : pairOf (keyOf p) = Some p) by (apply Hwf; now right).
    rewrite Heq, Hp in Hp'. injection Hp' as <-. contradiction.
Qed.

(** X24 -- A clear makes the next listing look everything up: after
    [clear_cache], when no window is enumerated twice, [getWindowList(false)]
    does what [getWindowList(true)] does, the same calls with the same
    result and the same cache afterwards: one [GetWindowID] for every
    enumerated pair. *)
Theorem listing_after_clear_looks_up_every_pair (w : World) :
  let cleared := snd (clear_cache w) in
  NoDup (enumeratedPairs env cleared) ->
  getWindowList env false cleared = getWindowList env true cleared.
Proof.
  intros cleared Hnd.
  rewrite !getWindowList_run.
  rewrite (windowLoop_pairs env false), (windowLoop_pairs env true).
  fold (enumeratedPairs env cleared).
  apply windowLoop_cold; [apply pairsOf_wf | assumption |].
  intros p _. reflexivity.
Qed.
End ColdListing.

(** ** The properties at work *)

Lemma callTool_keeps_cache_invariant_witness :
  cacheOk (cache (snd (callTool (rt := asciiRuntime) scenarioEnv
                         (Request.mk "list_windows" noArguments None)
                         freshWorld))).
Proof.
  apply (callTool_keeps_cache_invariant (rt := asciiRuntime) scenarioEnv
           (Request.mk "list_windows" noArguments None) freshWorld).
  apply cacheOk_empty.
Defined.

Lemma resolveNamedWindow_miss_stores_witness :
  exists w' : World,
    resolveNamedWindow (rt := asciiRuntime) scenarioEnv "Mail" "Inbox" freshWorld
    = (Returned 12%Z, w') /\
    log w' = (log freshWorld ++ [Exec (GetWindowID "Mail" "Inbox")])%list /\
    map_get (WindowCache.getCacheKey "Mail" "Inbox") (cache w')
    = Some (CachedWindow.mk 12 "Mail" "Inbox" (clock w')) /\
    (12%Z <> 0%Z ->
     resolveNamedWindow (rt := asciiRuntime) scenarioEnv "Mail" "Inbox" w'
     = (Returned 12%Z, w')).
Proof.
  apply (resolveNamedWindow_miss_stores (rt := asciiRuntime) scenarioEnv
           freshWorld "Mail" "Inbox" "12" 12); reflexivity.
Defined.

Lemma resolveNamedWindow_not_found_witness :
  exists w' : World,
    resolveNamedWindow (rt := asciiRuntime) scenarioEnv "Figma" "Nope" freshWorld
    = (Thrown (windowNotFound "Figma" "Nope"), w') /\
    log w' = (log freshWorld ++ [Exec (GetWindowID "Figma" "Nope")])%list /\
    cache w'
    = snd (WindowCache.get (clock freshWorld) "Figma" "Nope" (cache freshWorld)).
Proof.
  apply (resolveNamedWindow_not_found (rt := asciiRuntime) scenarioEnv
           freshWorld "Figma" "Nope").
  - reflexivity.
  - intros stdout H. vm_compute in H. discriminate.
Defined.

Lemma getFirstWindowIdForApp_not_found_witness :
  getFirstWindowIdForApp (rt := asciiRuntime) scenarioEnv "Safari" freshWorld
  = (Returned 0%Z,
     afterCall scenarioEnv (Exec (Osascript (GetFirstWindowScript "Safari")))
       freshWorld).
Proof.
  apply (getFirstWindowIdForApp_not_found (rt := asciiRuntime) scenarioEnv
           freshWorld "Safari").
  - reflexivity.
  - intros stdout H. injection H as <-. left. reflexivity.
Defined.

Lemma getFirstWindowIdForApp_fills_cache_witness :
  exists w' : World,
    getFirstWindowIdForApp (rt := asciiRuntime) inboxFirst "Mail" freshWorld
    = (Returned 12%Z, w') /\
    log w' = (log freshWorld
              ++ [Exec (Osascript (GetFirstWindowScript "Mail"));
                  Exec (GetWindowID "Mail"
                          (trim (Runtime := asciiRuntime) ("Inbox" +++ newline)))])%list /\
    entryFor (cache w') "Mail"
      (trim (Runtime := asciiRuntime) ("Inbox" +++ newline)) 12 /\
    getFirstWindowIdForApp (rt := asciiRuntime) inboxFirst "Mail" w'
    = (Returned 12%Z, w').
Proof.
  apply (getFirstWindowIdForApp_fills_cache (rt := asciiRuntime) inboxFirst
           freshWorld "Mail" ("Inbox" +++ newline) "12" 12);
    (reflexivity || (vm_compute; discriminate)).
Defined.

Lemma hot_cache_needs_no_lookup_witness :
  let w := snd (getWindowList (rt := asciiRuntime) scenarioEnv false freshWorld) in
  getWindowList (rt := asciiRuntime) scenarioEnv false w
  = (Returned (flat_map (fromCache (cache w))
                 (enumeratedPairs (rt := asciiRuntime) scenarioEnv w)),
     afterCall scenarioEnv (Exec (Osascript GetWindowsScript)) w).
Proof.
  apply (hot_cache_needs_no_lookup (rt := asciiRuntime) scenarioEnv
           (snd (getWindowList (rt := asciiRuntime) scenarioEnv false freshWorld))).
  intros p Hin. vm_compute in Hin.
  destruct Hin as [<-|[<-|[<-|[]]]];
    [exists (CachedWindow.mk 10 "Figma" "Design A" 10)
    |exists (CachedWindow.mk 11 "Figma" "Design B" 15)
    |exists (CachedWindow.mk 12 "Mail" "Inbox" 20)];
    (split; [vm_compute; reflexivity|]); (split; [discriminate|]);
    vm_compute; discriminate.
Defined.


Lemma take_screenshot_window_not_found_witness :
  let args := ScreenshotArgs.mk None (Some "Figma") (Some "Nope") None in
  exists (w' : World) (calls : list Call),
    take_screenshot (rt := asciiRuntime) scenarioEnv args freshWorld
    = (Returned (screenshotError (windowNotFound "Figma" "Nope")), w') /\
    log w' = (log freshWorld ++ calls)%list /\
    (calls = [ExistsSync (screenshotsDir (rt := asciiRuntime) scenarioEnv);
              Exec (GetWindowID "Figma" "Nope")] \/
     calls = [ExistsSync (screenshotsDir (rt := asciiRuntime) scenarioEnv);
              Mkdir (screenshotsDir (rt := asciiRuntime) scenarioEnv);
              Exec (GetWindowID "Figma" "Nope")]).
Proof.
  apply (take_screenshot_window_not_found (rt := asciiRuntime) scenarioEnv
           (ScreenshotArgs.mk None (Some "Figma") (Some "Nope") None)
           freshWorld
           (snd (ensureDirectory (rt := asciiRuntime) scenarioEnv freshWorld))
           "Figma" "Nope").
  - reflexivity.
  - reflexivity.
  - reflexivity.
  - reflexivity.
  - intros stdout H. vm_compute in H. discriminate.
Defined.

Lemma take_screenshot_no_windows_witness :
  let args := ScreenshotArgs.mk None (Some "Safari") None None in
  let w1 := snd (ensureDirectory (rt := asciiRuntime) scenarioEnv freshWorld) in
  take_screenshot (rt := asciiRuntime) scenarioEnv args freshWorld
  = (Returned (screenshotError (noWindowsForApp "Safari")),
     snd (getFirstWindowIdForApp (rt := asciiRuntime) scenarioEnv "Safari" w1)).
Proof.
  apply (take_screenshot_no_windows (rt := asciiRuntime) scenarioEnv
           (ScreenshotArgs.mk None (Some "Safari") None None) freshWorld
           (snd (ensureDirectory (rt := asciiRuntime) scenarioEnv freshWorld))
           (snd (getFirstWindowIdForApp (rt := asciiRuntime) scenarioEnv "Safari"
                   (snd (ensureDirectory (rt := asciiRuntime) scenarioEnv
                           freshWorld))))
           "Safari"); reflexivity.
Defined.

Lemma take_screenshot_mkdir_fails_witness :
  exists w' : World,
    take_screenshot (rt := asciiRuntime) readOnlyEnv noArguments freshWorld
    = (Returned (screenshotError (mkError "EACCES: permission denied, mkdir")),
       w') /\
    log w' = (log freshWorld
              ++ [ExistsSync (screenshotsDir (rt := asciiRuntime) readOnlyEnv);
                  Mkdir (screenshotsDir (rt := asciiRuntime) readOnlyEnv)])%list /\
    cache w' = cache freshWorld.
Proof.
  apply (take_screenshot_mkdir_fails (rt := asciiRuntime) readOnlyEnv
           noArguments freshWorld
           (mkError "EACCES: permission denied, mkdir")); reflexivity.
Defined.

Lemma take_screenshot_full_screen_witness :
  exists (answer : ToolResponse) (w' : World) (calls : list Call),
    take_screenshot (rt := asciiRuntime) scenarioEnv noArguments freshWorld
    = (Returned answer, w') /\
    cache w' = cache freshWorld /\
    log w' = (log freshWorld ++ calls)%list /\
    Forall (fullScreenCall
              (screenshotPath (rt := asciiRuntime) scenarioEnv noArguments
                 freshWorld)
              (screenshotsDir (rt := asciiRuntime) scenarioEnv)) calls.
Proof.
  apply (take_screenshot_full_screen (rt := asciiRuntime) scenarioEnv
           noArguments freshWorld).
  reflexivity.
Defined.

Lemma take_screenshot_image_answer_witness :
  let w' := snd (take_screenshot (rt := asciiRuntime) scenarioEnv noArguments
                   freshWorld) in
  let path := screenshotPath (rt := asciiRuntime) scenarioEnv noArguments
                freshWorld in
  exists (l : list Call) (target : option (bool * Z)),
    log w' = (l ++ [Exec (Screencapture target path); ExistsSync path;
                    ReadFile path])%list /\
    existsSync scenarioEnv (l ++ [Exec (Screencapture target path)])%list path
    = true /\
    readFile scenarioEnv
      (l ++ [Exec (Screencapture target path); ExistsSync path])%list path
    = Resolved "aGVsbG8=" /\
    "Screenshot saved to: /work/screenshots/screenshot_2025-01-01_00-00-00.png"
    = "Screenshot" +++ appInfoOf noArguments +++ " saved to: " +++ path /\
    "image/png" = "image/png" /\
    (target = None <-> given (ScreenshotArgs.appName noArguments) = None) /\
    (forall shadow id,
        target = Some (shadow, id) -> shadow = includeShadow noArguments).
Proof.
  apply (take_screenshot_image_answer (rt := asciiRuntime) scenarioEnv
           noArguments freshWorld
           (snd (take_screenshot (rt := asciiRuntime) scenarioEnv noArguments
                   freshWorld))
           "Screenshot saved to: /work/screenshots/screenshot_2025-01-01_00-00-00.png"
           "aGVsbG8=" "image/png").
  reflexivity.
Defined.


Lemma cached_resolution_agrees_on_miss_witness :
  let cached := resolveNamedWindow (rt := asciiRuntime) scenarioEnv
                  "Mail" "Inbox" freshWorld in
  let uncached := Uncached.resolveNamedWindow (rt := asciiRuntime) scenarioEnv
                    "Mail" "Inbox" freshWorld in
  fst cached = fst uncached /\
  log (snd cached) = (log freshWorld ++ [Exec (GetWindowID "Mail" "Inbox")])%list /\
  log (snd uncached) = (log freshWorld ++ [Exec (GetWindowID "Mail" "Inbox")])%list /\
  clock (snd cached) = clock (snd uncached) /\
  cache (snd uncached) = cache freshWorld.
Proof.
  apply (cached_resolution_agrees_on_miss (rt := asciiRuntime) scenarioEnv
           freshWorld "Mail" "Inbox").
  reflexivity.
Defined.

Lemma listing_after_clear_looks_up_every_pair_witness :
  let cleared := snd (clear_cache freshWorld) in
  getWindowList (rt := asciiRuntime) scenarioEnv false cleared
  = getWindowList (rt := asciiRuntime) scenarioEnv true cleared.
Proof.
  apply (listing_after_clear_looks_up_every_pair (rt := asciiRuntime)
           scenarioEnv freshWorld).
  vm_compute. repeat constructor; simpl; intuition discriminate.
Defined.
